(** * The per-client track listener of the SFU (package [server])

    A small-step model of [trackListener]: its methods ([Close],
    [AddTrack], [RemoveTrack], [Tracks], [handleTrack],
    [sendTrackEvent]) and the two goroutines started by
    [startCopyingTrack] are threads of an interleaving semantics.  Every
    access to shared memory, every lock operation and every channel
    operation is one step; the answers of the collaborators (the peer
    connection, the remote track, the router) are carried by the label of
    the step.  Logging is not modelled. *)

From Stdlib Require Import Ascii.
From stdpp Require Import base list gmap strings.

Local Open Scope list_scope.

(** ** Go runtime objects *)

(** [sync.RWMutex]: one writer or any number of readers. *)
Record RWMutex := mkRW { writer : bool; readers : nat }.

Definition rw_free : RWMutex := mkRW false 0.

Definition Lock (m : RWMutex) : option RWMutex :=
  if writer m then None
  else if readers m is O then Some (mkRW true 0) else None.

Definition Unlock (m : RWMutex) : RWMutex := mkRW false (readers m).

Definition RLock (m : RWMutex) : option RWMutex :=
  if writer m then None else Some (mkRW false (S (readers m))).

Definition RUnlock (m : RWMutex) : RWMutex := mkRW (writer m) (pred (readers m)).

(** [sync.Once]: a second caller of [Do] waits while the first one runs. *)
Inductive Once := OnceIdle | OnceRunning | OnceDone.

(** [time.Ticker]: the channel [C] has a buffer of one tick; [Stop] only
    turns the ticker off, it does not close [C]. *)
Record Ticker := mkTicker { C_pending : bool; C_closed : bool; running : bool }.

Definition NewTicker : Ticker := mkTicker false false true.
Definition ticker_Stop (t : Ticker) : Ticker := mkTicker (C_pending t) (C_closed t) false.
Definition ticker_fire (t : Ticker) : Ticker :=
  if running t then mkTicker true (C_closed t) true else t.
Definition ticker_take (t : Ticker) : Ticker := mkTicker false (C_closed t) (running t).

(** 3 seconds, in nanoseconds. *)
Definition rtcpPLIInterval : Z := 3 * 1000000000.

(** Pointers are compared by identity. *)
Definition TrackPtr := positive.
Definition SenderPtr := positive.

(** A slice header; the backing arrays live in the heap of the world. *)
Record slice := mkSlice { s_arr : nat; s_len : nat; s_cap : nat }.

Definition nil_slice : slice := mkSlice 0 0 0.

Abbreviation heap := (list (list (option TrackPtr))).

Definition view (h : heap) (s : slice) : list (option TrackPtr) :=
  take (s_len s) (default [] (h !! s_arr s)).

(** Capacity chosen by the runtime when a slice of pointers is full. *)
Definition growcap (c : nat) : nat := if c is O then 1 else 2 * c.

(** [append(s, x)]: in place when there is room, else in a new array. *)
Definition append (h : heap) (s : slice) (x : TrackPtr) : heap * slice :=
  if decide (s_len s < s_cap s) then
    (alter (λ a, <[s_len s := Some x]> a) (s_arr s) h,
     mkSlice (s_arr s) (S (s_len s)) (s_cap s))
  else
    let c := growcap (s_cap s) in
    (h ++ [view h s ++ Some x :: replicate (c - S (s_len s)) None],
     mkSlice (length h) (S (s_len s)) c).

(** ** Data of the package *)

Inductive TrackEventType := TrackEventTypeAdd | TrackEventTypeRemove.

(** The constants are [iota + 1]. *)
Definition TrackEventType_value (t : TrackEventType) : Z :=
  match t with TrackEventTypeAdd => 1 | TrackEventTypeRemove => 2 end.

Record TrackEvent := mkTrackEvent {
  ClientID : string;
  Track : TrackPtr;
  Type_ : TrackEventType
}.

(** What [handleTrack] reads from the remote [*webrtc.Track]. *)
Record RemoteTrack := mkRemote {
  r_id : string;
  r_label : string;
  r_payloadType : N;
  r_ssrc : N
}.

(** A local track as created by [peerConnection.NewTrack]. *)
Record LocalTrack := mkLocal {
  t_payloadType : N;
  t_ssrc : N;
  t_id : string;
  t_label : string
}.

Inductive error :=
| ErrAddingTrack          (* peer.AddTrack: error adding track *)
| ErrCannotFindSender     (* peer.RemoveTrack: cannot find sender for track *)
| ErrSessionRemoveTrack.  (* the error of peerConnection.RemoveTrack, returned as it is *)

Record trackListener := mkListener {
  clientID : string;
  localTracks : slice;
  localTracksMu : RWMutex;
  rtpSenderByTrack : gmap TrackPtr SenderPtr;
  tracksChannel_closed : bool;       (* close(p.tracksChannel) was executed *)
  tracksChannelClosed : bool;        (* the field of that name *)
  closeChannel_closed : bool;        (* close(p.closeChannel) was executed *)
  mu : RWMutex;
  closeOnce : Once
}.

Definition newTrackListener (cid : string) : trackListener :=
  mkListener cid nil_slice rw_free ∅ false false false rw_free OnceIdle.

Definition set_localTracks v p := mkListener (clientID p) v (localTracksMu p)
  (rtpSenderByTrack p) (tracksChannel_closed p) (tracksChannelClosed p)
  (closeChannel_closed p) (mu p) (closeOnce p).
Definition set_localTracksMu v p := mkListener (clientID p) (localTracks p) v
  (rtpSenderByTrack p) (tracksChannel_closed p) (tracksChannelClosed p)
  (closeChannel_closed p) (mu p) (closeOnce p).
Definition set_rtpSenderByTrack v p := mkListener (clientID p) (localTracks p)
  (localTracksMu p) v (tracksChannel_closed p) (tracksChannelClosed p)
  (closeChannel_closed p) (mu p) (closeOnce p).
Definition set_tracksChannel_closed v p := mkListener (clientID p) (localTracks p)
  (localTracksMu p) (rtpSenderByTrack p) v (tracksChannelClosed p)
  (closeChannel_closed p) (mu p) (closeOnce p).
Definition set_tracksChannelClosed v p := mkListener (clientID p) (localTracks p)
  (localTracksMu p) (rtpSenderByTrack p) (tracksChannel_closed p) v
  (closeChannel_closed p) (mu p) (closeOnce p).
Definition set_closeChannel_closed v p := mkListener (clientID p) (localTracks p)
  (localTracksMu p) (rtpSenderByTrack p) (tracksChannel_closed p)
  (tracksChannelClosed p) v (mu p) (closeOnce p).
Definition set_mu v p := mkListener (clientID p) (localTracks p)
  (localTracksMu p) (rtpSenderByTrack p) (tracksChannel_closed p)
  (tracksChannelClosed p) (closeChannel_closed p) v (closeOnce p).
Definition set_closeOnce v p := mkListener (clientID p) (localTracks p)
  (localTracksMu p) (rtpSenderByTrack p) (tracksChannel_closed p)
  (tracksChannelClosed p) (closeChannel_closed p) (mu p) v.

(** The listener together with what it acts on. *)
Record world := mkWorld {
  p_ : trackListener;
  arrays : heap;                               (* backing arrays of localTracks *)
  tracks : gmap TrackPtr LocalTrack;           (* tracks made by NewTrack *)
  tickers : list Ticker;
  received : list TrackEvent;                  (* what the router got from tracksChannel *)
  written : list (TrackPtr * list Byte.byte);  (* calls of localTrack.Write *)
  rtcp : list N;                               (* MediaSSRC of each PLI given to WriteRTCP *)
  panicked : bool
}.

Definition newWorld (cid : string) : world :=
  mkWorld (newTrackListener cid) [] ∅ [] [] [] [] false.

Definition upd (f : trackListener → trackListener) (w : world) : world :=
  mkWorld (f (p_ w)) (arrays w) (tracks w) (tickers w) (received w) (written w)
    (rtcp w) (panicked w).
Definition set_p v w := mkWorld v (arrays w) (tracks w) (tickers w) (received w)
  (written w) (rtcp w) (panicked w).
Definition set_arrays v w := mkWorld (p_ w) v (tracks w) (tickers w) (received w)
  (written w) (rtcp w) (panicked w).
Definition set_tracks v w := mkWorld (p_ w) (arrays w) v (tickers w) (received w)
  (written w) (rtcp w) (panicked w).
Definition set_tickers v w := mkWorld (p_ w) (arrays w) (tracks w) v (received w)
  (written w) (rtcp w) (panicked w).
Definition set_received v w := mkWorld (p_ w) (arrays w) (tracks w) (tickers w) v
  (written w) (rtcp w) (panicked w).
Definition set_written v w := mkWorld (p_ w) (arrays w) (tracks w) (tickers w)
  (received w) v (rtcp w) (panicked w).
Definition set_rtcp v w := mkWorld (p_ w) (arrays w) (tracks w) (tickers w)
  (received w) (written w) v (panicked w).
Definition panic (w : world) : world := mkWorld (p_ w) (arrays w) (tracks w)
  (tickers w) (received w) (written w) (rtcp w) true.

(** ** Threads *)

Inductive exit_reason := ReadFailed | WriteFailed.

Inductive close_pc :=
| C_once | C_signal | C_lock | C_closeEvents | C_setFlag | C_unlock | C_onceDone | C_ret.

Inductive handle_pc :=
| H_start
| H_lock (localTrack : TrackPtr)
| H_append (localTrack : TrackPtr)
| H_unlock (localTrack : TrackPtr)
| H_send (localTrack : TrackPtr)
| H_ret.

Inductive copy_pc :=
| F_read
| F_write (i : nat)
| F_rlock (why : exit_reason)
| F_check (why : exit_reason)
| F_send (why : exit_reason)
| F_runlock (why : exit_reason)
| F_stop (why : exit_reason)
| F_ret (why : exit_reason).

Inductive pli_pc := P_first | P_range | P_write | P_ret.

Inductive add_pc :=
| A_lock | A_session | A_record (rtpSender : SenderPtr)
| A_unlock (err : option error) | A_ret (err : option error).

Inductive remove_pc :=
| R_lock | R_lookup | R_delete (rtpSender : SenderPtr) | R_session (rtpSender : SenderPtr)
| R_unlock (err : option error) | R_ret (err : option error).

Inductive tracks_pc := T_read | T_ret (s : slice).

Inductive send_pc := S_rlock | S_flag | S_select (ch : bool) | S_runlock | S_ret.

Inductive thread :=
| TClose (pc : close_pc)
| THandleTrack (remoteTrack : RemoteTrack) (pc : handle_pc)
| TCopy (remoteTrack : RemoteTrack) (localTrack : TrackPtr) (ticker : nat)
    (rtpBuf : list Byte.byte) (pc : copy_pc)
| TPLI (ssrc : N) (ticker : nat) (pc : pli_pc)
| TAddTrack (track : TrackPtr) (pc : add_pc)
| TRemoveTrack (track : TrackPtr) (pc : remove_pc)
| TTracks (pc : tracks_pc)
| TSendTrackEvent (t : TrackEvent) (pc : send_pc).

Inductive write_result := WriteOk | WriteErrClosedPipe | WriteErrOther.

(** What the surroundings contribute to a step. *)
Inductive env :=
| Tau
| Recv                                              (* the router receives from tracksChannel *)
| NewTrackRes (uuids : list string) (r : option TrackPtr)
| ReadRes (r : option (list Byte.byte))              (* remoteTrack.Read: the packet, or an error *)
| WriteRes (r : write_result)                        (* localTrack.Write *)
| RTCPRes (ok : bool)                                (* peerConnection.WriteRTCP *)
| AddTrackRes (r : option SenderPtr)                 (* peerConnection.AddTrack *)
| RemoveTrackRes (ok : bool).                        (* peerConnection.RemoveTrack *)

Definition result : Type := option (world * thread * list thread).

Definition goto (w : world) (t : thread) : result := Some (w, t, []).

(** ** Close

    [closeOnce.Do]: close the close channel, take [mu], close the events
    channel, set the flag, release [mu]. *)

Definition step_Close (w : world) (pc : close_pc) (e : env) : result :=
  let p := p_ w in
  match e with
  | Tau =>
    match pc with
    | C_once =>
      match closeOnce p with
      | OnceDone => goto w (TClose C_ret)
      | OnceIdle => goto (upd (set_closeOnce OnceRunning) w) (TClose C_signal)
      | OnceRunning => None
      end
    | C_signal =>
      if closeChannel_closed p then goto (panic w) (TClose pc)
      else goto (upd (set_closeChannel_closed true) w) (TClose C_lock)
    | C_lock =>
      m ← Lock (mu p); goto (upd (set_mu m) w) (TClose C_closeEvents)
    | C_closeEvents =>
      if tracksChannel_closed p then goto (panic w) (TClose pc)
      else goto (upd (set_tracksChannel_closed true) w) (TClose C_setFlag)
    | C_setFlag => goto (upd (set_tracksChannelClosed true) w) (TClose C_unlock)
    | C_unlock => goto (upd (set_mu (Unlock (mu p))) w) (TClose C_onceDone)
    | C_onceDone => goto (upd (set_closeOnce OnceDone) w) (TClose C_ret)
    | C_ret => None
    end
  | _ => None
  end.

(** ** AddTrack, RemoveTrack, Tracks

    [AddTrack] and [RemoveTrack] hold [localTracksMu] from their first
    line to their return; [RemoveTrack] deletes the entry of the track
    before it asks the session; [Tracks] returns the field as it is. *)

Definition step_AddTrack (w : world) (track : TrackPtr) (pc : add_pc) (e : env) : result :=
  let p := p_ w in
  match pc, e with
  | A_lock, Tau =>
    m ← Lock (localTracksMu p); goto (upd (set_localTracksMu m) w) (TAddTrack track A_session)
  | A_session, AddTrackRes (Some rtpSender) => goto w (TAddTrack track (A_record rtpSender))
  | A_session, AddTrackRes None => goto w (TAddTrack track (A_unlock (Some ErrAddingTrack)))
  | A_record rtpSender, Tau =>
    goto (upd (set_rtpSenderByTrack (<[track := rtpSender]> (rtpSenderByTrack p))) w)
      (TAddTrack track (A_unlock None))
  | A_unlock err, Tau =>
    goto (upd (set_localTracksMu (Unlock (localTracksMu p))) w) (TAddTrack track (A_ret err))
  | _, _ => None
  end.

Definition step_RemoveTrack (w : world) (track : TrackPtr) (pc : remove_pc) (e : env) : result :=
  let p := p_ w in
  match pc, e with
  | R_lock, Tau =>
    m ← Lock (localTracksMu p); goto (upd (set_localTracksMu m) w) (TRemoveTrack track R_lookup)
  | R_lookup, Tau =>
    match rtpSenderByTrack p !! track with
    | None => goto w (TRemoveTrack track (R_unlock (Some ErrCannotFindSender)))
    | Some rtpSender => goto w (TRemoveTrack track (R_delete rtpSender))
    end
  | R_delete rtpSender, Tau =>
    goto (upd (set_rtpSenderByTrack (delete track (rtpSenderByTrack p))) w)
      (TRemoveTrack track (R_session rtpSender))
  | R_session rtpSender, RemoveTrackRes ok =>
    goto w (TRemoveTrack track (R_unlock (if ok then None else Some ErrSessionRemoveTrack)))
  | R_unlock err, Tau =>
    goto (upd (set_localTracksMu (Unlock (localTracksMu p))) w) (TRemoveTrack track (R_ret err))
  | _, _ => None
  end.

Definition step_Tracks (w : world) (pc : tracks_pc) (e : env) : result :=
  match pc, e with
  | T_read, Tau => goto w (TTracks (T_ret (localTracks (p_ w))))
  | _, _ => None
  end.

(** ** sendTrackEvent

    Under the read lock of [mu]: a [select] between sending on the events
    channel, or on a nil channel when the flag is set, and receiving from
    the close channel. *)

Definition step_sendTrackEvent (w : world) (t : TrackEvent) (pc : send_pc) (e : env) : result :=
  let p := p_ w in
  match pc, e with
  | S_rlock, Tau => m ← RLock (mu p); goto (upd (set_mu m) w) (TSendTrackEvent t S_flag)
  | S_flag, Tau => goto w (TSendTrackEvent t (S_select (negb (tracksChannelClosed p))))
  | S_select ch, Recv =>
    (* case ch <- t *)
    if ch then
      if tracksChannel_closed p then goto (panic w) (TSendTrackEvent t pc)
      else goto (set_received (received w ++ [t]) w) (TSendTrackEvent t S_runlock)
    else None
  | S_select ch, Tau =>
    (* case <-p.closeChannel *)
    if closeChannel_closed p then goto w (TSendTrackEvent t S_runlock) else None
  | S_runlock, Tau => goto (upd (set_mu (RUnlock (mu p))) w) (TSendTrackEvent t S_ret)
  | _, _ => None
  end.

(** ** handleTrack and startCopyingTrack

    [handleTrack] calls [startCopyingTrack], which names and creates the
    local track and starts the two goroutines; then it appends the track
    to [localTracks] under [localTracksMu] and sends the Add event. *)

Definition base62 (c : ascii) : bool :=
  let n := nat_of_ascii c in
  ((48 <=? n) && (n <=? 57)) || ((65 <=? n) && (n <=? 90)) || ((97 <=? n) && (n <=? 122)).

Definition uuid_base62 (u : string) : bool :=
  negb (String.eqb u EmptyString) && forallb base62 (String.list_ascii_of_string u).

(** Modelled from the spec: [NewUUIDBase62] is a function of the package
    that is not in the source at hand; the spec calls its result a unique
    base-62 UUID, non-empty.  A call takes the next string the surroundings
    supply, which has to be of that form. *)
Definition NewUUIDBase62 (uuids : list string) : option (string * list string) :=
  match uuids with
  | u :: rest => if uuid_base62 u then Some (u, rest) else None
  | [] => None
  end.

Definition orUUID (s : string) (uuids : list string) : option (string * list string) :=
  if String.eqb s EmptyString then NewUUIDBase62 uuids else Some (s, uuids).

(** The first lines of [startCopyingTrack]: the ID and the label of the
    local track, and the strings not used. *)
Definition startCopyingTrack_names (cid : string) (remoteTrack : RemoteTrack)
    (uuids : list string) : option (string * string * list string) :=
  '(remoteTrackID, uuids1) ← orUUID (r_id remoteTrack) uuids;
  '(remoteTrackLabel, uuids2) ← orUUID (r_label remoteTrack) uuids1;
  let localTrackLabel := "sfu_" +:+ cid +:+ "_" +:+ remoteTrackLabel in
  let localTrackID := "sfu_" +:+ remoteTrackID in
  Some (localTrackID, localTrackLabel, uuids2).

(** The string that stands for [s] when [u] is the UUID drawn for it, and
    the UUIDs drawn for it: one if [s] is empty, none otherwise. *)
Definition orGiven (s u : string) : string :=
  if decide (s = EmptyString) then u else s.

Definition draws (s u : string) : list string :=
  if decide (s = EmptyString) then [u] else [].

Definition rtpBuf0 : list Byte.byte := replicate 1400 Byte.x00.

Definition step_handleTrack (w : world) (remoteTrack : RemoteTrack) (pc : handle_pc)
    (e : env) : result :=
  let p := p_ w in
  match pc, e with
  | H_start, NewTrackRes uuids r =>
    '(localTrackID, localTrackLabel, rest) ← startCopyingTrack_names (clientID p) remoteTrack uuids;
    if rest is [] then
      match r with
      | None => goto w (THandleTrack remoteTrack H_ret)
      | Some localTrack =>
        if tracks w !! localTrack is None then
          let ssrc := r_ssrc remoteTrack in
          let ticker := length (tickers w) in
          let w1 := set_tracks (<[localTrack :=
                      mkLocal (r_payloadType remoteTrack) ssrc localTrackID localTrackLabel]>
                      (tracks w)) w in
          let w2 := set_tickers (tickers w ++ [NewTicker]) w1 in
          Some (w2, THandleTrack remoteTrack (H_lock localTrack),
                [TPLI ssrc ticker P_first;
                 TCopy remoteTrack localTrack ticker rtpBuf0 F_read])
        else None
      end
    else None
  | H_lock localTrack, Tau =>
    m ← Lock (localTracksMu p);
    goto (upd (set_localTracksMu m) w) (THandleTrack remoteTrack (H_append localTrack))
  | H_append localTrack, Tau =>
    let '(h, s) := append (arrays w) (localTracks p) localTrack in
    goto (set_arrays h (upd (set_localTracks s) w)) (THandleTrack remoteTrack (H_unlock localTrack))
  | H_unlock localTrack, Tau =>
    goto (upd (set_localTracksMu (Unlock (localTracksMu p))) w)
      (THandleTrack remoteTrack (H_send localTrack))
  | H_send localTrack, _ =>
    if tracksChannel_closed p then goto (panic w) (THandleTrack remoteTrack pc)
    else if e is Recv then
      goto (set_received (received w ++ [mkTrackEvent (clientID p) localTrack TrackEventTypeAdd]) w)
        (THandleTrack remoteTrack H_ret)
    else None
  | _, _ => None
  end.

(** The goroutine that sends a PLI at once and then at every tick. *)
Definition step_PLI (w : world) (ssrc : N) (ticker : nat) (pc : pli_pc) (e : env) : result :=
  match pc, e with
  | P_first, RTCPRes _ => goto (set_rtcp (rtcp w ++ [ssrc]) w) (TPLI ssrc ticker P_range)
  | P_range, Tau =>
    t ← tickers w !! ticker;
    if C_pending t then
      goto (set_tickers (<[ticker := ticker_take t]> (tickers w)) w) (TPLI ssrc ticker P_write)
    else if C_closed t then goto w (TPLI ssrc ticker P_ret)
    else None
  | P_write, RTCPRes _ => goto (set_rtcp (rtcp w ++ [ssrc]) w) (TPLI ssrc ticker P_range)
  | _, _ => None
  end.

(** The goroutine that copies packets; its two deferred calls run last
    deferred first: the Remove event, then [ticker.Stop]. *)
Definition step_copy (w : world) (remoteTrack : RemoteTrack) (localTrack : TrackPtr)
    (ticker : nat) (rtpBuf : list Byte.byte) (pc : copy_pc) (e : env) : result :=
  let p := p_ w in
  let self := TCopy remoteTrack localTrack ticker in
  match pc, e with
  | F_read, ReadRes (Some packet) =>
    if decide (length packet ≤ length rtpBuf) then
      goto w (self (packet ++ drop (length packet) rtpBuf) (F_write (length packet)))
    else None
  | F_read, ReadRes None => goto w (self rtpBuf (F_rlock ReadFailed))
  | F_write i, WriteRes r =>
    if decide (i ≤ length rtpBuf) then
      let w1 := set_written (written w ++ [(localTrack, take i rtpBuf)]) w in
      match r with
      | WriteOk | WriteErrClosedPipe => goto w1 (self rtpBuf F_read)
      | WriteErrOther => goto w1 (self rtpBuf (F_rlock WriteFailed))
      end
    else goto (panic w) (self rtpBuf pc)
  | F_rlock why, Tau => m ← RLock (mu p); goto (upd (set_mu m) w) (self rtpBuf (F_check why))
  | F_check why, Tau =>
    if tracksChannelClosed p then goto w (self rtpBuf (F_runlock why))
    else goto w (self rtpBuf (F_send why))
  | F_send why, _ =>
    if tracksChannel_closed p then goto (panic w) (self rtpBuf pc)
    else if e is Recv then
      goto (set_received (received w ++ [mkTrackEvent (clientID p) localTrack TrackEventTypeRemove]) w)
        (self rtpBuf (F_runlock why))
    else None
  | F_runlock why, Tau => goto (upd (set_mu (RUnlock (mu p))) w) (self rtpBuf (F_stop why))
  | F_stop why, Tau =>
    goto (set_tickers (alter ticker_Stop ticker (tickers w)) w) (self rtpBuf (F_ret why))
  | _, _ => None
  end.

(** ** The interleaving semantics *)

Definition step_thread (w : world) (t : thread) (e : env) : result :=
  match t with
  | TClose pc => step_Close w pc e
  | THandleTrack r pc => step_handleTrack w r pc e
  | TCopy r l k buf pc => step_copy w r l k buf pc e
  | TPLI ssrc k pc => step_PLI w ssrc k pc e
  | TAddTrack track pc => step_AddTrack w track pc e
  | TRemoveTrack track pc => step_RemoveTrack w track pc e
  | TTracks pc => step_Tracks w pc e
  | TSendTrackEvent t pc => step_sendTrackEvent w t pc e
  end.

(** The calls that reach the listener from outside; [sendTrackEvent] has
    no caller. *)
Inductive call :=
| CallClose
| CallAddTrack (track : TrackPtr)
| CallRemoveTrack (track : TrackPtr)
| CallTracks
| OnTrack (remoteTrack : RemoteTrack).

Definition enter (c : call) : thread :=
  match c with
  | CallClose => TClose C_once
  | CallAddTrack track => TAddTrack track A_lock
  | CallRemoveTrack track => TRemoveTrack track R_lock
  | CallTracks => TTracks T_read
  | OnTrack r => THandleTrack r H_start
  end.

Inductive label :=
| Call (c : call)
| Step (i : nat) (e : env)
| Tick (ticker : nat).

Definition state : Type := world * list thread.

(** A panic ends the process. *)
Definition step (l : label) (st : state) : option state :=
  let '(w, ts) := st in
  if panicked w then None
  else match l with
  | Call c => Some (w, ts ++ [enter c])
  | Tick k => t ← tickers w !! k; Some (set_tickers (<[k := ticker_fire t]> (tickers w)) w, ts)
  | Step i e =>
    t ← ts !! i;
    '(w', t', new) ← step_thread w t e;
    Some (w', <[i := t']> ts ++ new)
  end.

Fixpoint run (ls : list label) (st : state) : option state :=
  match ls with
  | [] => Some st
  | l :: ls' => st' ← step l st; run ls' st'
  end.

Definition init (cid : string) : state := (newWorld cid, []).

(** ** A call run on its own

    [exec] runs one thread with no other thread in between.  An inner
    step is taken when there is one; otherwise the next answer of the
    surroundings is used.  Threads started on the way are left out. *)

Inductive outcome :=
| Returned (w : world) (t : thread)
| Blocked (w : world) (t : thread)
| Panicked (w : world)
| OutOfFuel.

Definition finished (t : thread) : bool :=
  match t with
  | TClose C_ret | THandleTrack _ H_ret | TCopy _ _ _ _ (F_ret _) | TPLI _ _ P_ret
  | TAddTrack _ (A_ret _) | TRemoveTrack _ (R_ret _) | TTracks (T_ret _)
  | TSendTrackEvent _ S_ret => true
  | _ => false
  end.

Fixpoint exec (fuel : nat) (es : list env) (w : world) (t : thread) : outcome :=
  if finished t then Returned w t
  else match fuel with
  | O => OutOfFuel
  | S fuel' =>
    match step_thread w t Tau with
    | Some (w', t', _) => if panicked w' then Panicked w' else exec fuel' es w' t'
    | None =>
      match es with
      | e :: es' =>
        match step_thread w t e with
        | Some (w', t', _) => if panicked w' then Panicked w' else exec fuel' es' w' t'
        | None => Blocked w t
        end
      | [] => Blocked w t
      end
    end
  end.

Definition Close (w : world) : outcome := exec 7 [] w (TClose C_once).

Definition AddTrack (track : TrackPtr) (session : option SenderPtr) (w : world) : outcome :=
  exec 4 [AddTrackRes session] w (TAddTrack track A_lock).

Definition RemoveTrack (track : TrackPtr) (session_ok : bool) (w : world) : outcome :=
  exec 5 [RemoveTrackRes session_ok] w (TRemoveTrack track R_lock).

Definition Tracks (w : world) : outcome := exec 1 [] w (TTracks T_read).

Definition sendTrackEvent (t : TrackEvent) (router_ready : bool) (w : world) : outcome :=
  exec 4 (if router_ready then [Recv] else []) w (TSendTrackEvent t S_rlock).

(** [n] calls of [Close], one after the other. *)
Fixpoint Close_times (n : nat) (w : world) : outcome :=
  match n with
  | O => Returned w (TClose C_ret)
  | S n' =>
    match Close w with
    | Returned w' _ => Close_times n' w'
    | o => o
    end
  end.

(** The worlds a thread passes through when it runs alone, inner steps
    only. *)
Fixpoint trail (fuel : nat) (w : world) (t : thread) : list world :=
  match fuel with
  | O => []
  | S fuel' =>
    match step_thread w t Tau with
    | Some (w', t', _) => w' :: trail fuel' w' t'
    | None => []
    end
  end.

(** The listener after the call of [Close] that does the work. *)
Definition closed_by_Close (w : world) : world :=
  upd (λ p, set_closeOnce OnceDone (set_tracksChannelClosed true
              (set_tracksChannel_closed true (set_closeChannel_closed true p)))) w.

Definition close_flags (w : world) : bool * bool * bool :=
  (closeChannel_closed (p_ w), tracksChannel_closed (p_ w), tracksChannelClosed (p_ w)).

(** One thread run on the given answers, one step for each. *)
Fixpoint run_thread (es : list env) (w : world) (t : thread) : option (world * thread) :=
  match es with
  | [] => Some (w, t)
  | e :: es' => '(w', t', _) ← step_thread w t e; run_thread es' w' t'
  end.

(** The answers met by the copying loop: for each turn the packet read
    and the result of the write. *)
Definition copy_script (ios : list (list Byte.byte * write_result)) : list env :=
  flat_map (λ io, [ReadRes (Some io.1); WriteRes io.2]) ios.

(** [err == nil || err == io.ErrClosedPipe] *)
Definition benign (r : write_result) : bool :=
  match r with WriteErrOther => false | _ => true end.

Definition after_write (r : write_result) : copy_pc :=
  if benign r then F_read else F_rlock WriteFailed.

(** The program points inside the [for] of the copying goroutine. *)
Definition looping (pc : copy_pc) : bool :=
  match pc with F_read | F_write _ => true | _ => false end.

(** ** Invariants of the reachable states *)

(** The header of a slice fits its backing array. *)
Definition slice_wf (h : heap) (s : slice) : Prop :=
  s_len s ≤ s_cap s ∧ (s_cap s = 0 ∨ ∃ a, h !! s_arr s = Some a ∧ length a = s_cap s).

(** [s0] is a header that [cur] had at some earlier time. *)
Definition snapshot_of (h : heap) (cur s0 : slice) : Prop :=
  (s_len s0 = 0 ∨ s_arr s0 < length h) ∧ (s_arr s0 = s_arr cur → s_len s0 ≤ s_len cur).

Definition thread_ok (w : world) (t : thread) : Prop :=
  let p := p_ w in
  match t with
  | TClose pc =>
    match pc with
    | C_once | C_signal => True
    | C_lock | C_closeEvents => closeChannel_closed p = true
    | C_setFlag => closeChannel_closed p = true ∧ tracksChannel_closed p = true
    | C_unlock | C_onceDone =>
      closeChannel_closed p = true ∧ tracksChannel_closed p = true ∧
      tracksChannelClosed p = true
    | C_ret => closeOnce p = OnceDone
    end
  | THandleTrack _ pc =>
    match pc with
    | H_unlock localTrack | H_send localTrack =>
      Some localTrack ∈ view (arrays w) (localTracks p)
    | _ => True
    end
  | TPLI _ _ pc => pc ≠ P_ret
  | TTracks (T_ret s) => snapshot_of (arrays w) (localTracks p) s
  | TSendTrackEvent _ _ => False
  | _ => True
  end.

Definition world_ok (w : world) : Prop :=
  let p := p_ w in
  (closeOnce p = OnceDone → tracksChannel_closed p = true ∧ tracksChannelClosed p = true) ∧
  (tracksChannel_closed p = true → closeChannel_closed p = true) ∧
  (tracksChannelClosed p = true → tracksChannel_closed p = true) ∧
  slice_wf (arrays w) (localTracks p) ∧
  Forall (λ t, C_closed t = false) (tickers w) ∧
  (∀ ev, ev ∈ received w → Type_ ev = TrackEventTypeAdd →
         Some (Track ev) ∈ view (arrays w) (localTracks p)).

(** What a step never undoes. *)
Definition world_le (w w' : world) : Prop :=
  let p := p_ w in
  let p' := p_ w' in
  clientID p' = clientID p ∧
  (closeOnce p = OnceDone → closeOnce p' = OnceDone) ∧
  (closeChannel_closed p = true → closeChannel_closed p' = true) ∧
  (tracksChannel_closed p = true → tracksChannel_closed p' = true) ∧
  (tracksChannelClosed p = true → tracksChannelClosed p' = true) ∧
  (tracksChannel_closed p = true → received w' = received w) ∧
  view (arrays w) (localTracks p) `prefix_of` view (arrays w') (localTracks p') ∧
  (∀ s0, snapshot_of (arrays w) (localTracks p) s0 →
         snapshot_of (arrays w') (localTracks p') s0 ∧
         view (arrays w') s0 = view (arrays w) s0).

Definition inv (st : state) : Prop :=
  world_ok st.1 ∧ Forall (thread_ok st.1) st.2.

Definition step_spec (w : world) (t : thread) (w' : world) (t' : thread)
    (new : list thread) : Prop :=
  world_le w w' ∧ world_ok w' ∧ thread_ok w' t' ∧ Forall (thread_ok w') new.

(** ** Runs and worlds used as examples *)

Definition vid : RemoteTrack := mkRemote "vid" "stream-A" 96 12345.

Definition anon : RemoteTrack := mkRemote EmptyString EmptyString 96 12345.

Definition pk (n : nat) (b : Byte.byte) : list Byte.byte := replicate n b.

Definition ev_add1 : TrackEvent := mkTrackEvent "pub1" 1%positive TrackEventTypeAdd.

(** One remote track arrives, its Add event is received, [Close] is
    called and returns. *)
Definition trace_add_then_close : list label :=
  [Call (OnTrack vid); Step 0 (NewTrackRes [] (Some 1%positive));
   Step 0 Tau; Step 0 Tau; Step 0 Tau; Step 0 Recv;
   Call CallClose; Step 3 Tau; Step 3 Tau; Step 3 Tau; Step 3 Tau; Step 3 Tau;
   Step 3 Tau; Step 3 Tau].

(** After that the remote read fails and the copying goroutine runs its
    deferred calls. *)
Definition trace_copy_exit : list label :=
  [Step 2 (ReadRes None); Step 2 Tau; Step 2 Tau; Step 2 Tau; Step 2 Tau].

Definition state_added : state :=
  default (init "pub1") (run (take 6 trace_add_then_close) (init "pub1")).

Definition state_closed : state :=
  default (init "pub1") (run trace_add_then_close (init "pub1")).

Definition state_after_exit : state :=
  default (init "pub1") (run trace_copy_exit state_closed).

(** [Close] is called on a new listener and has closed both channels. *)
Definition trace_closing : list label :=
  [Call CallClose; Step 0 Tau; Step 0 Tau; Step 0 Tau; Step 0 Tau].

Definition state_closing : state :=
  default (init "pub1") (run trace_closing (init "pub1")).

Definition world_closed : world :=
  mkWorld (mkListener "pub1" nil_slice rw_free ∅ true true true rw_free OnceDone)
    [] ∅ [] [] [] [] false.

(** The handler is blocked in its send when [Close] is called and closes
    the close channel. *)
Definition trace_send_blocked : list label :=
  [Call (OnTrack vid); Step 0 (NewTrackRes [] (Some 1%positive));
   Step 0 Tau; Step 0 Tau; Step 0 Tau;
   Call CallClose; Step 3 Tau; Step 3 Tau].

Definition state_send_blocked : state :=
  default (init "pub1") (run trace_send_blocked (init "pub1")).

(** [Close] goes on: it takes the lock and closes the events channel. *)
Definition state_events_closed : state :=
  default (init "pub1") (run [Step 3 Tau; Step 3 Tau] state_send_blocked).

(** The remote read fails at once: the copying goroutine has returned
    before the PLI goroutine has run at all. *)
Definition trace_copy_returns_first : list label :=
  [Call (OnTrack vid); Step 0 (NewTrackRes [] (Some 1%positive));
   Step 2 (ReadRes None); Step 2 Tau; Step 2 Tau; Step 2 Recv; Step 2 Tau; Step 2 Tau].

Definition state_copy_returned : state :=
  default (init "pub1") (run trace_copy_returns_first (init "pub1")).

(** The PLI goroutine has sent its first PLI and a tick is in the buffer
    of [ticker.C] when the copying goroutine returns. *)
Definition trace_tick_buffered : list label :=
  [Call (OnTrack vid); Step 0 (NewTrackRes [] (Some 1%positive));
   Step 1 (RTCPRes true); Tick 0;
   Step 2 (ReadRes None); Step 2 Tau; Step 2 Tau; Step 2 Recv; Step 2 Tau; Step 2 Tau].

Definition state_tick_buffered : state :=
  default (init "pub1") (run trace_tick_buffered (init "pub1")).

(** The handler holds [localTracksMu] for its append while [Tracks] and
    [AddTrack] are called. *)
Definition trace_append_locked : list label :=
  [Call (OnTrack vid); Step 0 (NewTrackRes [] (Some 1%positive)); Step 0 Tau;
   Call CallTracks; Call (CallAddTrack 5%positive)].

Definition state_append_locked : state :=
  default (init "pub1") (run trace_append_locked (init "pub1")).

(** A write to the local track fails with an error that is not the
    closed-pipe error; [Close] is never called. *)
Definition trace_write_fails : list label :=
  [Call (OnTrack vid); Step 0 (NewTrackRes [] (Some 1%positive));
   Step 2 (ReadRes (Some [Byte.x01])); Step 2 (WriteRes WriteErrOther);
   Step 2 Tau; Step 2 Tau; Step 2 Recv; Step 2 Tau; Step 2 Tau].

Definition state_write_failed : state :=
  default (init "pub1") (run trace_write_fails (init "pub1")).

(** The remote read fails, the copying goroutine waits in the send of its
    Remove event, and [Close] is called and closes the close channel. *)
Definition trace_remove_pending : list label :=
  [Call (OnTrack vid); Step 0 (NewTrackRes [] (Some 1%positive));
   Step 2 (ReadRes None); Step 2 Tau; Step 2 Tau;
   Call CallClose; Step 3 Tau; Step 3 Tau].

Definition state_remove_pending : state :=
  default (init "pub1") (run trace_remove_pending (init "pub1")).

(** [Tracks] is called after the first track was appended; then a second
    remote track, without ID and label, arrives and is appended. *)
Definition trace_tracks_called : list label :=
  [Call (OnTrack vid); Step 0 (NewTrackRes [] (Some 1%positive));
   Step 0 Tau; Step 0 Tau; Step 0 Tau; Call CallTracks; Step 3 Tau].

Definition trace_second_append : list label :=
  [Call (OnTrack anon); Step 4 (NewTrackRes ["2Ab"; "9zZ"]%string (Some 2%positive));
   Step 4 Tau; Step 4 Tau].

Definition state_tracks_called : state :=
  default (init "pub1") (run trace_tracks_called (init "pub1")).

Definition state_second_append : state :=
  default (init "pub1") (run trace_second_append state_tracks_called).

(** A listener in which track 1 has sender 7. *)
Definition world_attached : world :=
  upd (set_rtpSenderByTrack {[1%positive := 7%positive]}) (newWorld "pub1").

(** ** Counting threads

    [tally f l] adds up [f] over [l]; with [f] the indicator of a set of
    program points it counts the threads that are at one of them. *)
Fixpoint tally {A : Type} (f : A → nat) (l : list A) : nat :=
  match l with
  | [] => 0
  | x :: l' => f x + tally f l'
  end.

Definition bn (b : bool) : nat := if b then 1 else 0.

Definition is_running (o : Once) : nat := if o is OnceRunning then 1 else 0.

Definition is_done (o : Once) : nat := if o is OnceDone then 1 else 0.

(** A [Close] inside the function given to [closeOnce.Do]. *)
Definition in_Do (t : thread) : nat :=
  match t with
  | TClose (C_signal | C_lock | C_closeEvents | C_setFlag | C_unlock | C_onceDone) => 1
  | _ => 0
  end.

(** ... that has closed the close channel, *)
Definition signalled (t : thread) : nat :=
  match t with
  | TClose (C_lock | C_closeEvents | C_setFlag | C_unlock | C_onceDone) => 1
  | _ => 0
  end.

(** ... that holds [mu] for writing, *)
Definition holds_Lock (t : thread) : nat :=
  match t with
  | TClose (C_closeEvents | C_setFlag | C_unlock) => 1
  | _ => 0
  end.

(** ... that has closed the events channel, *)
Definition closed_events (t : thread) : nat :=
  match t with
  | TClose (C_setFlag | C_unlock | C_onceDone) => 1
  | _ => 0
  end.

(** ... that has set [tracksChannelClosed]. *)
Definition flag_set (t : thread) : nat :=
  match t with
  | TClose (C_unlock | C_onceDone) => 1
  | _ => 0
  end.

(** A copying goroutine that holds [mu] for reading, in its deferred
    function. *)
Definition holds_RLock (t : thread) : nat :=
  match t with
  | TCopy _ _ _ _ (F_check _ | F_send _ | F_runlock _) => 1
  | _ => 0
  end.

(** What a copying goroutine knows: its buffer has 1400 bytes, the number
    of bytes to write fits, and at its send the flag was read as false. *)
Definition copy_ok (flag : bool) (t : thread) : Prop :=
  match t with
  | TCopy _ _ _ rtpBuf pc =>
    length rtpBuf = 1400 ∧
    match pc with
    | F_write i => i ≤ 1400
    | F_send _ => flag = false
    | _ => True
    end
  | TSendTrackEvent _ _ => False
  | _ => True
  end.

(** The state of [closeOnce], of [mu], of the two channels and of the flag
    is the one the threads' program points account for. *)
Definition lock_inv (st : state) : Prop :=
  let p := p_ st.1 in
  let ts := st.2 in
  tally in_Do ts = is_running (closeOnce p) ∧
  bn (closeChannel_closed p) = is_done (closeOnce p) + tally signalled ts ∧
  bn (writer (mu p)) = tally holds_Lock ts ∧
  readers (mu p) = tally holds_RLock ts ∧
  bn (tracksChannel_closed p) = is_done (closeOnce p) + tally closed_events ts ∧
  bn (tracksChannelClosed p) = is_done (closeOnce p) + tally flag_set ts ∧
  (tally holds_Lock ts = 0 ∨ tally holds_RLock ts = 0) ∧
  Forall (copy_ok (tracksChannelClosed p)) ts.

(** ** Where tracks, events, writes and PLIs come from *)

(** The names [startCopyingTrack] gives a local track. *)
Definition named (cid : string) (t : LocalTrack) : Prop :=
  ∃ remoteTrackID remoteTrackLabel,
    remoteTrackID ≠ EmptyString ∧ remoteTrackLabel ≠ EmptyString ∧
    t_id t = "sfu_" +:+ remoteTrackID ∧
    t_label t = "sfu_" +:+ cid +:+ "_" +:+ remoteTrackLabel.

(** [l] is the local track made for the remote track [r]. *)
Definition copy_of (w : world) (r : RemoteTrack) (l : TrackPtr) : Prop :=
  ∃ t, tracks w !! l = Some t ∧ t_ssrc t = r_ssrc r ∧ t_payloadType t = r_payloadType r.

Definition thread_prov (w : world) (t : thread) : Prop :=
  match t with
  | THandleTrack r (H_lock l | H_append l | H_unlock l | H_send l) => copy_of w r l
  | TCopy r l k rtpBuf pc =>
    copy_of w r l ∧ k < length (tickers w) ∧ length rtpBuf = 1400 ∧
    (if pc is F_write i then i ≤ 1400 else True)
  | TPLI ssrc k _ =>
    (∃ l t, tracks w !! l = Some t ∧ t_ssrc t = ssrc) ∧ k < length (tickers w)
  | TSendTrackEvent _ _ => False
  | _ => True
  end.

Definition world_prov (cid : string) (w : world) : Prop :=
  clientID (p_ w) = cid ∧
  (∀ l t, tracks w !! l = Some t → named cid t) ∧
  (∀ ev, ev ∈ received w → ClientID ev = cid ∧ is_Some (tracks w !! Track ev)) ∧
  (∀ l b, (l, b) ∈ written w → is_Some (tracks w !! l) ∧ length b ≤ 1400) ∧
  (∀ s, s ∈ rtcp w → ∃ l t, tracks w !! l = Some t ∧ t_ssrc t = s) ∧
  (∀ x, x ∈ view (arrays w) (localTracks (p_ w)) →
         ∃ l, x = Some l ∧ is_Some (tracks w !! l)).

(** Tracks and tickers are never taken away. *)
Definition prov_le (w w' : world) : Prop :=
  tracks w ⊆ tracks w' ∧ length (tickers w) ≤ length (tickers w').

Definition prov_inv (cid : string) (st : state) : Prop :=
  world_prov cid st.1 ∧ Forall (thread_prov st.1) st.2.

(** What a step of a thread owes to these. *)
Definition prov_spec (cid : string) (w : world) (t : thread) (w' : world) (t' : thread)
    (new : list thread) : Prop :=
  slice_wf (arrays w) (localTracks (p_ w)) →
  world_prov cid w → thread_prov w t →
  world_prov cid w' ∧ prov_le w w' ∧ thread_prov w' t' ∧ Forall (thread_prov w') new.

(** ** One Add, one Remove and one append for each track *)

(** A handler that has still to send the Add event of [l], *)
Definition add_due (l : TrackPtr) (t : thread) : nat :=
  match t with
  | THandleTrack _ (H_lock l' | H_append l' | H_unlock l' | H_send l') =>
    if decide (l' = l) then 1 else 0
  | _ => 0
  end.

(** ... that has still to append [l] to [localTracks]. *)
Definition append_due (l : TrackPtr) (t : thread) : nat :=
  match t with
  | THandleTrack _ (H_lock l' | H_append l') => if decide (l' = l) then 1 else 0
  | _ => 0
  end.

(** A copying goroutine of [l] that has not yet passed its deferred send. *)
Definition remove_due (l : TrackPtr) (t : thread) : nat :=
  match t with
  | TCopy _ l' _ _ (F_read | F_write _ | F_rlock _ | F_check _ | F_send _) =>
    if decide (l' = l) then 1 else 0
  | _ => 0
  end.

Definition is_Add (l : TrackPtr) (ev : TrackEvent) : nat :=
  match Type_ ev with
  | TrackEventTypeAdd => if decide (Track ev = l) then 1 else 0
  | TrackEventTypeRemove => 0
  end.

Definition is_Remove (l : TrackPtr) (ev : TrackEvent) : nat :=
  match Type_ ev with
  | TrackEventTypeAdd => 0
  | TrackEventTypeRemove => if decide (Track ev = l) then 1 else 0
  end.

Definition is_entry (l : TrackPtr) (x : option TrackPtr) : nat :=
  if decide (x = Some l) then 1 else 0.

(** For the track [l]: what is still due and what was done add up to at
    most one, and to nothing as long as [l] has not been created. *)
Definition token_at (l : TrackPtr) (st : state) : Prop :=
  let w := st.1 in
  let ts := st.2 in
  let v := view (arrays w) (localTracks (p_ w)) in
  tally (add_due l) ts + tally (is_Add l) (received w) ≤ 1 ∧
  tally (remove_due l) ts + tally (is_Remove l) (received w) ≤ 1 ∧
  tally (append_due l) ts + tally (is_entry l) v ≤ 1 ∧
  (tracks w !! l = None →
   tally (add_due l) ts + tally (is_Add l) (received w) = 0 ∧
   tally (remove_due l) ts + tally (is_Remove l) (received w) = 0 ∧
   tally (append_due l) ts + tally (is_entry l) v = 0).

Definition token_inv (st : state) : Prop := ∀ l, token_at l st.

(** A thread between [localTracksMu.Lock] and its [Unlock]. *)
Definition holds_localTracksMu (t : thread) : nat :=
  match t with
  | THandleTrack _ (H_append _ | H_unlock _) => 1
  | TAddTrack _ (A_session | A_record _ | A_unlock _) => 1
  | TRemoveTrack _ (R_lookup | R_delete _ | R_session _ | R_unlock _) => 1
  | _ => 0
  end.

Definition localTracksMu_inv (st : state) : Prop :=
  bn (writer (localTracksMu (p_ st.1))) = tally holds_localTracksMu st.2 ∧
  readers (localTracksMu (p_ st.1)) = 0.

(** [AddTrack] and [RemoveTrack] are called while the handler of a remote
    track holds [localTracksMu]. *)
Definition trace_calls_wait : list label :=
  [Call (OnTrack vid); Step 0 (NewTrackRes [] (Some 1%positive)); Step 0 Tau;
   Call (CallAddTrack 1%positive); Call (CallRemoveTrack 1%positive)].

Definition state_calls_wait : state :=
  default (init "pub1") (run trace_calls_wait (init "pub1")).

(** * Proofs *)

(** ** Slices *)

Lemma growcap_gt c : c < growcap c.
Proof. destruct c; simpl; lia. Qed.

Lemma view_length h s : slice_wf h s → length (view h s) = s_len s.
Proof.
  intros [Hle [H0 | (a & Ha & Hl)]]; unfold view.
  - rewrite length_take. assert (s_len s = 0) by lia. lia.
  - rewrite Ha. simpl. rewrite length_take. lia.
Qed.

Lemma append_view h s x :
  slice_wf h s →
  view (append h s x).1 (append h s x).2 = view h s ++ [Some x].
Proof.
  intros Hwf. pose proof (view_length _ _ Hwf) as Hlen.
  unfold append. case_decide as Hlt; simpl.
  - destruct Hwf as [_ [H0 | (a & Ha & Hl)]]; [lia|].
    unfold view; simpl. rewrite list_lookup_alter_eq, Ha. simpl.
    rewrite (take_S_r _ _ (Some x)).
    + by rewrite take_insert_ge by lia.
    + apply list_lookup_insert_eq. lia.
  - unfold view at 1; simpl. rewrite lookup_app_r by lia.
    rewrite Nat.sub_diag. simpl.
    rewrite <- Hlen at 1.
    change (view h s ++ Some x :: ?r) with (view h s ++ [Some x] ++ r).
    rewrite app_assoc. rewrite take_app_length'; [done|].
    rewrite length_app. simpl. lia.
Qed.

Lemma append_wf h s x : slice_wf h s → slice_wf (append h s x).1 (append h s x).2.
Proof.
  intros Hwf. pose proof (view_length _ _ Hwf) as Hlen.
  unfold append. case_decide as Hlt; simpl.
  - destruct Hwf as [_ [H0 | (a & Ha & Hl)]]; [lia|].
    split; simpl; [lia|]. right. exists (<[s_len s := Some x]> a).
    rewrite list_lookup_alter_eq, Ha. simpl. by rewrite length_insert.
  - destruct Hwf as [Hle _]. pose proof (growcap_gt (s_cap s)).
    split; simpl; [lia|]. right. eexists. rewrite lookup_app_r by lia.
    rewrite Nat.sub_diag. simpl. split; [done|].
    rewrite length_app. simpl. rewrite length_replicate. lia.
Qed.

Lemma append_snapshot h s x s0 :
  slice_wf h s → snapshot_of h s s0 →
  snapshot_of (append h s x).1 (append h s x).2 s0 ∧
  view (append h s x).1 s0 = view h s0.
Proof.
  intros Hwf [Hin Hsame]. unfold append. case_decide as Hlt; simpl.
  - split.
    + split; simpl.
      * rewrite length_alter. done.
      * intros He. specialize (Hsame He). lia.
    + unfold view. destruct (decide (s_arr s0 = s_arr s)) as [He|Hne].
      * rewrite He, list_lookup_alter_eq. destruct (h !! s_arr s); simpl; [|done].
        apply take_insert_ge. auto.
      * by rewrite list_lookup_alter_ne.
  - split.
    + split; simpl.
      * rewrite length_app. simpl. lia.
      * intros He. destruct Hin; lia.
    + unfold view. destruct Hin as [H0 | Hin].
      * by rewrite H0.
      * by rewrite lookup_app_l.
Qed.

Lemma snapshot_of_cur h s : slice_wf h s → snapshot_of h s s.
Proof.
  intros [Hle [H0 | (a & Ha & Hl)]]; split; auto.
  - left. lia.
  - right. by eapply lookup_lt_Some.
Qed.

(** ** The invariant is kept by every step *)

Lemma world_le_refl w : world_le w w.
Proof. unfold world_le. by repeat (split; [done|]). Qed.

Lemma world_le_trans w1 w2 w3 : world_le w1 w2 → world_le w2 w3 → world_le w1 w3.
Proof.
  unfold world_le. intros (A1&A2&A3&A4&A5&A6&A7&A8) (B1&B2&B3&B4&B5&B6&B7&B8).
  split; [congruence|]. split; [auto|]. split; [auto|]. split; [auto|].
  split; [auto|]. split; [|split].
  - intros H. rewrite B6, A6; auto.
  - by etrans.
  - intros s0 H. destruct (A8 _ H) as [H1 H2]. destruct (B8 _ H1) as [H3 H4].
    split; [done | congruence].
Qed.

Lemma thread_ok_mono w w' t : world_le w w' → thread_ok w t → thread_ok w' t.
Proof.
  intros (A1&A2&A3&A4&A5&A6&A7&A8) H.
  destruct t as [pc|r pc|r l k b pc|s k pc|tr pc|tr pc|pc|ev pc]; simpl in *; auto.
  - destruct pc; simpl in *; intuition auto.
  - destruct pc; simpl in *; auto; eapply elem_of_prefix; eauto.
  - destruct pc; auto. by apply A8.
Qed.

Lemma Lock_Some m m' : Lock m = Some m' → m' = mkRW true 0 ∧ writer m = false ∧ readers m = 0.
Proof. destruct m as [[] []]; cbn; intros; by simplify_eq. Qed.

Ltac unpack :=
  repeat match goal with
  | H : _ ∧ _ |- _ => destruct H
  | H : Lock _ = Some _ |- _ => apply Lock_Some in H
  | H : RLock _ = Some _ |- _ => unfold RLock in H
  end.

Ltac crush :=
  unfold step_spec, world_le, world_ok in *; simpl in *; unpack;
  repeat match goal with |- _ ∧ _ => split end; simpl;
  try solve [intuition (subst; simpl in *; auto; congruence)].

Ltac run_step H :=
  unfold goto in H; simpl in H;
  repeat first [progress simplify_option_eq | case_match | progress unfold goto in *].

Lemma step_Close_inv w pc e w' t' new :
  step_Close w pc e = Some (w', t', new) → world_ok w → thread_ok w (TClose pc) →
  step_spec w (TClose pc) w' t' new.
Proof.
  destruct w as [p h tr tk rc wr rt pn]. destruct p as [cid lt ltm m c1 c2 c3 mu0 o].
  intros H Hw Ht. destruct e; try done.
  destruct pc; run_step H; crush.
Qed.

Lemma step_AddTrack_inv w tr0 pc e w' t' new :
  step_AddTrack w tr0 pc e = Some (w', t', new) → world_ok w →
  step_spec w (TAddTrack tr0 pc) w' t' new.
Proof.
  destruct w as [p h tr tk rc wr rt pn]. destruct p as [cid lt ltm m c1 c2 c3 mu0 o].
  intros H Hw. destruct pc, e; run_step H; crush.
Qed.

Lemma step_RemoveTrack_inv w tr0 pc e w' t' new :
  step_RemoveTrack w tr0 pc e = Some (w', t', new) → world_ok w →
  step_spec w (TRemoveTrack tr0 pc) w' t' new.
Proof.
  destruct w as [p h tr tk rc wr rt pn]. destruct p as [cid lt ltm m c1 c2 c3 mu0 o].
  intros H Hw. destruct pc, e; run_step H; crush.
Qed.

Lemma step_Tracks_inv w pc e w' t' new :
  step_Tracks w pc e = Some (w', t', new) → world_ok w →
  step_spec w (TTracks pc) w' t' new.
Proof.
  destruct w as [p h tr tk rc wr rt pn]. destruct p as [cid lt ltm m c1 c2 c3 mu0 o].
  intros H Hw. destruct pc, e; run_step H; crush.
  apply snapshot_of_cur. tauto.
Qed.

Ltac use_tickers :=
  match goal with
  | HF : Forall _ ?tk, HL : ?tk !! _ = Some _ |- _ =>
    pose proof (Forall_lookup_1 _ _ _ _ HF HL)
  end.

Lemma step_PLI_inv w ssrc k pc e w' t' new :
  step_PLI w ssrc k pc e = Some (w', t', new) → world_ok w →
  step_spec w (TPLI ssrc k pc) w' t' new.
Proof.
  destruct w as [p h tr tk rc wr rt pn]. destruct p as [cid lt ltm m c1 c2 c3 mu0 o].
  intros H Hw. destruct pc, e; run_step H; crush.
  - use_tickers. by apply Forall_insert.
  - use_tickers. simpl in *. congruence.
Qed.

Lemma step_copy_inv w r l k buf pc e w' t' new :
  step_copy w r l k buf pc e = Some (w', t', new) → world_ok w →
  step_spec w (TCopy r l k buf pc) w' t' new.
Proof.
  destruct w as [p h tr tk rc wr rt pn]. destruct p as [cid lt ltm m c1 c2 c3 mu0 o].
  intros H Hw. destruct pc, e; run_step H; crush.
  - intros ev [Hin | ->%list_elem_of_singleton]%elem_of_app; [auto | done].
  - apply Forall_alter; [done|]. by intros [].
Qed.

Lemma append_spec h s x h' s' :
  append h s x = (h', s') → slice_wf h s →
  view h' s' = view h s ++ [Some x] ∧ slice_wf h' s' ∧
  ∀ s0, snapshot_of h s s0 → snapshot_of h' s' s0 ∧ view h' s0 = view h s0.
Proof.
  intros E Hwf.
  pose proof (append_view h s x Hwf) as H1.
  pose proof (append_wf h s x Hwf) as H2.
  pose proof (λ s0, append_snapshot h s x s0 Hwf) as H3.
  rewrite E in H1, H2, H3. done.
Qed.

Lemma step_handleTrack_inv w r pc e w' t' new :
  step_handleTrack w r pc e = Some (w', t', new) → world_ok w →
  thread_ok w (THandleTrack r pc) →
  step_spec w (THandleTrack r pc) w' t' new.
Proof.
  destruct w as [p h tr tk rc wr rt pn]. destruct p as [cid lt ltm m c1 c2 c3 mu0 o].
  intros H Hw Ht. destruct pc, e; run_step H; crush;
    try match goal with
    | E : append _ _ _ = _, W : slice_wf _ _ |- _ =>
      destruct (append_spec _ _ _ _ _ E W) as (Hv & Hwf' & Hsnap)
    end; try done.
  - apply Forall_app. split; [done|]. by repeat constructor.
  - by repeat constructor.
  - rewrite Hv. by apply prefix_app_r.
  - intros ev Hin Hadd. rewrite Hv. apply elem_of_app. left. auto.
  - rewrite Hv. apply elem_of_app. right. by apply list_elem_of_singleton.
  - intros ev [Hin | ->%list_elem_of_singleton]%elem_of_app; [auto | done].
Qed.

Lemma step_thread_inv w t e w' t' new :
  step_thread w t e = Some (w', t', new) → world_ok w → thread_ok w t →
  step_spec w t w' t' new.
Proof.
  destruct t; simpl; intros.
  - by eapply step_Close_inv.
  - by eapply step_handleTrack_inv.
  - by eapply step_copy_inv.
  - by eapply step_PLI_inv.
  - by eapply step_AddTrack_inv.
  - by eapply step_RemoveTrack_inv.
  - by eapply step_Tracks_inv.
  - done.
Qed.

Lemma enter_ok w c : thread_ok w (enter c).
Proof. by destruct c. Qed.

Lemma init_inv cid : inv (init cid).
Proof.
  split; [|constructor]. unfold world_ok; simpl.
  repeat match goal with |- _ ∧ _ => split end; try done.
  - split; simpl; auto.
  - intros ev Hin. by apply elem_of_nil in Hin.
Qed.

Lemma step_inv l st st' :
  step l st = Some st' → inv st → inv st' ∧ world_le st.1 st'.1.
Proof.
  destruct st as [w ts]. unfold step. destruct (panicked w) eqn:Hp; [done|].
  intros H [Hw Hts]. simpl in *. destruct l as [c | i e | k].
  - injection H as <-. split; [|apply world_le_refl]. split; [done|]. simpl.
    apply Forall_app. split; [done|]. constructor; [apply enter_ok | constructor].
  - destruct (ts !! i) as [t|] eqn:Hi; simpl in H; [|done].
    destruct (step_thread w t e) as [[[w' t'] new]|] eqn:Hstep; simpl in H; [|done].
    injection H as <-.
    eapply step_thread_inv in Hstep as (Hle & Hw' & Ht' & Hnew); [|done|].
    2: { eapply Forall_lookup_1; eauto. }
    split; [|done]. split; [done|]. simpl. apply Forall_app. split; [|done].
    apply Forall_insert; [|done].
    eapply Forall_impl; [exact Hts|]. intros t0. by apply thread_ok_mono.
  - destruct (tickers w !! k) as [t|] eqn:Hk; simpl in H; [|done].
    injection H as <-.
    assert (world_le w (set_tickers (<[k:=ticker_fire t]> (tickers w)) w)) as Hle.
    { destruct w; unfold world_le; simpl. by repeat (split; [done|]). }
    split; [|done]. split; simpl.
    + destruct w as [p h tr tk rc wr rt pn]. unfold world_ok in *; simpl in *.
      destruct Hw as (?&?&?&?&HF&?). repeat match goal with |- _ ∧ _ => split end; auto.
      apply Forall_insert; [done|]. pose proof (Forall_lookup_1 _ _ _ _ HF Hk) as Hc.
      unfold ticker_fire. by destruct (running t).
    + eapply Forall_impl; [exact Hts|]. intros t0. by apply thread_ok_mono.
Qed.

Lemma run_inv ls st st' :
  run ls st = Some st' → inv st → inv st' ∧ world_le st.1 st'.1.
Proof.
  revert st. induction ls as [|l ls IH]; intros st H Hinv; simpl in H.
  - injection H as <-. split; [done | apply world_le_refl].
  - destruct (step l st) as [st1|] eqn:Hs; simpl in H; [|done].
    destruct (step_inv _ _ _ Hs Hinv) as [H1 Hle1].
    destruct (IH _ H H1) as [H2 Hle2].
    split; [done|]. by eapply world_le_trans.
Qed.

(** ** After Close *)

(** C1.  Once a call of [Close] has returned, nothing more is received from
    the events channel: whatever steps follow, of the handler, of a copying
    goroutine or of any other thread, the list of received events stays as
    it was. *)
Theorem no_event_after_Close cid ls st i ls' st' :
  run ls (init cid) = Some st →
  st.2 !! i = Some (TClose C_ret) →
  run ls' st = Some st' →
  received st'.1 = received st.1.
Proof.
  intros Hrun Hi Hrun'.
  destruct (run_inv _ _ _ Hrun (init_inv cid)) as [Hinv _].
  pose proof Hinv as [Hw Hts].
  pose proof (Forall_lookup_1 _ _ _ _ Hts Hi) as Hret. simpl in Hret.
  destruct Hw as (Hdone & _). destruct (Hdone Hret) as [Hclosed _].
  destruct (run_inv _ _ _ Hrun' Hinv) as [_ Hle].
  destruct Hle as (_&_&_&_&_&Hrecv&_). auto.
Qed.

Lemma no_event_after_Close_witness :
  state_closed.2 !! 3 = Some (TClose C_ret) ∧
  received state_after_exit.1 = received state_closed.1.
Proof.
  split; [vm_compute; reflexivity|].
  apply (no_event_after_Close "pub1" trace_add_then_close state_closed 3
           trace_copy_exit state_after_exit); vm_compute; reflexivity.
Defined.

(** ** Close is idempotent *)

Lemma Close_again w w' t :
  Close w = Returned w' t → Close w' = Returned w' (TClose C_ret) ∧ t = TClose C_ret.
Proof.
  unfold Close. destruct w as [p h tr tk rc wr rt pn].
  destruct p as [cid lt ltm m c1 c2 c3 [mw mr] o].
  destruct o, c1, c2, c3, mw, mr, pn; cbn; try done; intros [= <- <-]; done.
Qed.

Lemma Close_times_returned n w :
  Close w = Returned w (TClose C_ret) → Close_times n w = Returned w (TClose C_ret).
Proof. intros H. induction n as [|n IH]; simpl; [done|]. by rewrite H. Qed.

Lemma Close_open_returns w :
  mu (p_ w) = rw_free → panicked w = false → closeOnce (p_ w) = OnceIdle →
  closeChannel_closed (p_ w) = false → tracksChannel_closed (p_ w) = false →
  Close w = Returned (closed_by_Close w) (TClose C_ret).
Proof.
  destruct w as [p h tr tk rc wr rt pn]. destruct p as [cid lt ltm m c1 c2 c3 mu0 o].
  simpl. by intros -> -> -> -> ->.
Qed.

(** C8.  On a listener that is not closed and whose lock [mu] is free,
    [Close] returns, having closed both channels and set the flag; [n >= 1]
    calls in a row end in the same listener as that one call, and after
    any call of [Close] that returned a further call returns with nothing
    changed.  The call that does the work closes the close channel first,
    then the events channel, then sets the flag, and at every moment of
    every run the events channel is closed only if the close channel is,
    and the flag is set only if the events channel is closed. *)
Theorem Close_idempotent w n cid ls st :
  mu (p_ w) = rw_free → panicked w = false → closeOnce (p_ w) = OnceIdle →
  closeChannel_closed (p_ w) = false → tracksChannel_closed (p_ w) = false →
  1 ≤ n →
  run ls (init cid) = Some st →
  Close w = Returned (closed_by_Close w) (TClose C_ret) ∧
  Close_times n w = Returned (closed_by_Close w) (TClose C_ret) ∧
  (∀ w0 w1 t, Close w0 = Returned w1 t → Close w1 = Returned w1 (TClose C_ret)) ∧
  close_flags <$> trail 7 (newWorld cid) (TClose C_once) =
    [(false, false, false); (true, false, false); (true, false, false);
     (true, true, false); (true, true, true); (true, true, true);
     (true, true, true)] ∧
  (tracksChannel_closed (p_ st.1) = true → closeChannel_closed (p_ st.1) = true) ∧
  (tracksChannelClosed (p_ st.1) = true → tracksChannel_closed (p_ st.1) = true).
Proof.
  intros Hmu Hp Ho Hc3 Hc1 Hn Hrun.
  pose proof (Close_open_returns w Hmu Hp Ho Hc3 Hc1) as HC.
  split; [done|]. split; [|split; [|split]].
  - destruct n as [|n]; [lia|]. simpl. rewrite HC.
    apply Close_times_returned. by eapply Close_again.
  - intros w0 w1 t H0. by eapply Close_again.
  - reflexivity.
  - destruct (run_inv _ _ _ Hrun (init_inv cid)) as [[Hw _] _].
    destruct Hw as (_ & H1 & H2 & _). auto.
Qed.

Lemma Close_idempotent_witness :
  Close (newWorld "pub1") = Returned world_closed (TClose C_ret) ∧
  Close_times 3 (newWorld "pub1") = Returned world_closed (TClose C_ret) ∧
  tracksChannel_closed (p_ state_closing.1) = true ∧
  closeChannel_closed (p_ state_closing.1) = true.
Proof.
  assert (run trace_closing (init "pub1") = Some state_closing) as HR
    by (vm_compute; reflexivity).
  destruct (Close_idempotent (newWorld "pub1") 3 "pub1" _ _ eq_refl eq_refl eq_refl
              eq_refl eq_refl ltac:(lia) HR) as (H0 & H1 & _ & _ & H3 & _).
  split; [exact H0|]. split; [exact H1|]. split; [vm_compute; reflexivity|].
  apply H3. vm_compute; reflexivity.
Defined.

(** ** localTracks and the Add event *)

Lemma step_thread_localTracks w t e w' t' new :
  step_thread w t e = Some (w', t', new) →
  match t with
  | THandleTrack _ (H_append localTrack) =>
    append (arrays w) (localTracks (p_ w)) localTrack = (arrays w', localTracks (p_ w'))
  | _ => arrays w' = arrays w ∧ localTracks (p_ w') = localTracks (p_ w)
  end.
Proof.
  destruct w as [p h tr tk rc wr rt pn]. destruct p as [cid lt ltm m c1 c2 c3 mu0 o].
  intros H.
  destruct t as [pc|r pc|r l k b pc|s k pc|tr0 pc|tr0 pc|pc|ev pc]; simpl in H;
    destruct pc, e; run_step H; done.
Qed.

(** C10.  In every reachable state each Add event that was received
    carries a track that is in [localTracks], so a call of [Tracks] there
    returns a slice that holds it; a handler that is about to send its Add
    event has appended the track already; and a step changes [localTracks]
    only if it is the append of a handler, which adds its track at the end:
    the steps of [AddTrack] and [RemoveTrack], as all others, leave the
    list as it is. *)
Theorem Add_event_track_in_localTracks cid ls st :
  run ls (init cid) = Some st →
  (∀ ev, ev ∈ received st.1 → Type_ ev = TrackEventTypeAdd →
     Some (Track ev) ∈ view (arrays st.1) (localTracks (p_ st.1)) ∧
     (panicked st.1 = false →
      Tracks st.1 = Returned st.1 (TTracks (T_ret (localTracks (p_ st.1)))))) ∧
  (∀ i r localTrack, st.2 !! i = Some (THandleTrack r (H_send localTrack)) →
     Some localTrack ∈ view (arrays st.1) (localTracks (p_ st.1))) ∧
  (∀ l st', step l st = Some st' →
     match l with
     | Step i e =>
       match st.2 !! i with
       | Some (THandleTrack _ (H_append localTrack)) =>
         view (arrays st'.1) (localTracks (p_ st'.1)) =
         view (arrays st.1) (localTracks (p_ st.1)) ++ [Some localTrack]
       | _ =>
         arrays st'.1 = arrays st.1 ∧ localTracks (p_ st'.1) = localTracks (p_ st.1)
       end
     | _ => arrays st'.1 = arrays st.1 ∧ localTracks (p_ st'.1) = localTracks (p_ st.1)
     end).
Proof.
  intros Hrun. destruct (run_inv _ _ _ Hrun (init_inv cid)) as [[Hw Hts] _].
  split; [|split].
  - intros ev Hin Hadd. split.
    + destruct Hw as (_&_&_&_&_&Hrecv). auto.
    + intros Hp. unfold Tracks. simpl. by rewrite Hp.
  - intros i r localTrack Hi. exact (Forall_lookup_1 _ _ _ _ Hts Hi).
  - intros l st' Hstep. destruct st as [w ts]. simpl in *.
    destruct (panicked w); [done|]. destruct l as [c | i e | k].
    + by injection Hstep as <-.
    + destruct (ts !! i) as [t|] eqn:Hi; simpl in Hstep; [|done].
      destruct (step_thread w t e) as [[[w' t'] new]|] eqn:Hs; simpl in Hstep; [|done].
      injection Hstep as <-. simpl.
      pose proof (step_thread_localTracks _ _ _ _ _ _ Hs) as Hlt.
      destruct t as [pc|r pc|r l k b pc|s k pc|tr0 pc|tr0 pc|pc|ev pc]; try done.
      destruct pc; try done.
      destruct Hw as (_&_&_&Hwf&_). by destruct (append_spec _ _ _ _ _ Hlt Hwf) as [-> _].
    + destruct (tickers w !! k) as [t|]; simpl in Hstep; [|done].
      injection Hstep as <-. by destruct w.
Qed.

Lemma Add_event_track_in_localTracks_witness :
  mkTrackEvent "pub1" 1%positive TrackEventTypeAdd ∈ received state_added.1 ∧
  Some 1%positive ∈ view (arrays state_added.1) (localTracks (p_ state_added.1)).
Proof.
  assert (run (take 6 trace_add_then_close) (init "pub1") = Some state_added) as HR
    by (vm_compute; reflexivity).
  destruct (Add_event_track_in_localTracks _ _ _ HR) as (H1 & _).
  assert (mkTrackEvent "pub1" 1%positive TrackEventTypeAdd ∈ received state_added.1) as Hin
    by (vm_compute; apply list_elem_of_here).
  split; [exact Hin|]. exact (proj1 (H1 _ Hin eq_refl)).
Defined.

(** ** The send of the Add event *)

Lemma handleTrack_send_closed w r localTrack e :
  tracksChannel_closed (p_ w) = true →
  step_handleTrack w r (H_send localTrack) e =
    Some (panic w, THandleTrack r (H_send localTrack), []).
Proof. intros H. simpl. by rewrite H. Qed.

Lemma handleTrack_send_waits w r localTrack :
  tracksChannel_closed (p_ w) = false →
  step_handleTrack w r (H_send localTrack) Tau = None.
Proof. intros H. simpl. by rewrite H. Qed.

Lemma sendTrackEvent_drops_when_closed t w :
  closeChannel_closed (p_ w) = true → writer (mu (p_ w)) = false →
  panicked w = false →
  sendTrackEvent t false w = Returned w (TSendTrackEvent t S_ret).
Proof.
  destruct w as [p h tr tk rc wr rt pn]. destruct p as [cid lt ltm m c1 c2 c3 [mw mr] o].
  simpl. intros -> -> ->. by destruct c2.
Qed.

(** C2.  The Add event of [handleTrack] is sent by a plain send.  With the
    handler blocked in that send and the close channel already closed, the
    handler has no step: it does not see the close signal.  Once [Close]
    has closed the events channel, the handler's next step is a panic, and
    no event was received.  [sendTrackEvent] called in the first of these
    states returns and sends nothing. *)
Theorem handleTrack_Add_panics_on_Close :
  run trace_send_blocked (init "pub1") = Some state_send_blocked ∧
  state_send_blocked.2 !! 0 = Some (THandleTrack vid (H_send 1%positive)) ∧
  closeChannel_closed (p_ state_send_blocked.1) = true ∧
  step (Step 0 Tau) state_send_blocked = None ∧
  sendTrackEvent ev_add1 false state_send_blocked.1 =
    Returned state_send_blocked.1 (TSendTrackEvent ev_add1 S_ret) ∧
  run [Step 3 Tau; Step 3 Tau] state_send_blocked = Some state_events_closed ∧
  (∀ e, ∃ st, step (Step 0 e) state_events_closed = Some st ∧
     panicked st.1 = true ∧ received st.1 = [] ∧
     st.2 !! 0 = Some (THandleTrack vid (H_send 1%positive))).
Proof.
  repeat match goal with |- _ ∧ _ => split end; try (vm_compute; reflexivity).
  intros e. eexists.
  repeat match goal with |- _ ∧ _ => split end; destruct e; vm_compute; reflexivity.
Qed.

(** ** The PLI goroutine *)

(** C3.  The PLI goroutine never returns: in no reachable state is it past
    its loop.  In the run where the copying goroutine has returned and has
    stopped the ticker before the PLI goroutine ran, the PLI goroutine
    still writes its first PLI afterwards, and then waits for a tick, which
    no longer comes. *)
Theorem PLI_worker_outlives_copy_worker :
  (∀ cid ls st i ssrc k pc,
     run ls (init cid) = Some st → st.2 !! i = Some (TPLI ssrc k pc) → pc ≠ P_ret) ∧
  run trace_copy_returns_first (init "pub1") = Some state_copy_returned ∧
  state_copy_returned.2 !! 2 = Some (TCopy vid 1%positive 0 rtpBuf0 (F_ret ReadFailed)) ∧
  tickers state_copy_returned.1 = [mkTicker false false false] ∧
  rtcp state_copy_returned.1 = [] ∧
  ∃ st, run [Step 1 (RTCPRes true); Tick 0] state_copy_returned = Some st ∧
    rtcp st.1 = [12345%N] ∧
    st.2 !! 1 = Some (TPLI 12345 0 P_range) ∧
    tickers st.1 = [mkTicker false false false] ∧
    ∀ e, step (Step 1 e) st = None.
Proof.
  split; [|repeat match goal with |- _ ∧ _ => split end; try (vm_compute; reflexivity)].
  - intros cid ls st i ssrc k pc Hrun Hi.
    destruct (run_inv _ _ _ Hrun (init_inv cid)) as [[_ Hts] _].
    exact (Forall_lookup_1 _ _ _ _ Hts Hi).
  - eexists. split; [vm_compute; reflexivity|].
    repeat match goal with |- _ ∧ _ => split end; try (vm_compute; reflexivity).
    intros e. destruct e; vm_compute; reflexivity.
Qed.

Lemma PLI_worker_outlives_copy_worker_witness :
  state_copy_returned.2 !! 1 = Some (TPLI 12345 0 P_first) ∧ P_first ≠ P_ret.
Proof.
  assert (run trace_copy_returns_first (init "pub1") = Some state_copy_returned) as HR
    by (vm_compute; reflexivity).
  assert (state_copy_returned.2 !! 1 = Some (TPLI 12345 0 P_first)) as Hi
    by (vm_compute; reflexivity).
  split; [exact Hi|].
  exact (proj1 PLI_worker_outlives_copy_worker _ _ _ _ _ _ _ HR Hi).
Defined.

(** With a tick in the buffer the same holds of a later PLI: it is
    written after the copying goroutine has stopped the ticker. *)
Lemma PLI_written_after_Stop :
  run trace_tick_buffered (init "pub1") = Some state_tick_buffered ∧
  state_tick_buffered.2 !! 2 = Some (TCopy vid 1%positive 0 rtpBuf0 (F_ret ReadFailed)) ∧
  tickers state_tick_buffered.1 = [mkTicker true false false] ∧
  rtcp state_tick_buffered.1 = [12345%N] ∧
  ∃ st, run [Step 1 Tau; Step 1 (RTCPRes true)] state_tick_buffered = Some st ∧
    rtcp st.1 = [12345%N; 12345%N] ∧ st.2 !! 1 = Some (TPLI 12345 0 P_range).
Proof.
  repeat match goal with |- _ ∧ _ => split end; try (vm_compute; reflexivity).
  eexists. repeat match goal with |- _ ∧ _ => split end; vm_compute; reflexivity.
Qed.

(** ** Tracks *)

(** C9.  [Tracks] takes no lock.  While the handler holds [localTracksMu]
    for its append, a call of [Tracks] has a step and returns the header
    it reads, and the lock is as it was; [AddTrack], which takes the lock,
    has no step there.  In general the step of [Tracks] is the same
    whatever the state of the lock. *)
Theorem Tracks_takes_no_lock :
  run trace_append_locked (init "pub1") = Some state_append_locked ∧
  state_append_locked.2 !! 0 = Some (THandleTrack vid (H_append 1%positive)) ∧
  localTracksMu (p_ state_append_locked.1) = mkRW true 0 ∧
  state_append_locked.2 !! 3 = Some (TTracks T_read) ∧
  state_append_locked.2 !! 4 = Some (TAddTrack 5%positive A_lock) ∧
  (∃ st, step (Step 3 Tau) state_append_locked = Some st ∧
     st.2 !! 3 = Some (TTracks (T_ret nil_slice)) ∧
     localTracksMu (p_ st.1) = mkRW true 0) ∧
  (∀ e, step (Step 4 e) state_append_locked = None) ∧
  (∀ w m, step_Tracks (upd (set_localTracksMu m) w) T_read Tau =
     Some (upd (set_localTracksMu m) w, TTracks (T_ret (localTracks (p_ w))), [])).
Proof.
  repeat match goal with |- _ ∧ _ => split end; try (vm_compute; reflexivity).
  - eexists. repeat match goal with |- _ ∧ _ => split end; vm_compute; reflexivity.
  - intros e. destruct e; vm_compute; reflexivity.
Qed.

(** X11.  What does hold of the slice that [Tracks] returned: no later
    step changes the elements it shows, also when a later append moves
    [localTracks] to a new array. *)
Lemma Tracks_view_stable cid ls st i s ls' st' :
  run ls (init cid) = Some st →
  st.2 !! i = Some (TTracks (T_ret s)) →
  run ls' st = Some st' →
  view (arrays st'.1) s = view (arrays st.1) s.
Proof.
  intros Hrun Hi Hrun'.
  destruct (run_inv _ _ _ Hrun (init_inv cid)) as [Hinv _].
  pose proof Hinv as [_ Hts].
  pose proof (Forall_lookup_1 _ _ _ _ Hts Hi) as Hsnap. simpl in Hsnap.
  destruct (run_inv _ _ _ Hrun' Hinv) as [_ Hle].
  destruct Hle as (_&_&_&_&_&_&_&H8). by destruct (H8 _ Hsnap).
Qed.

Lemma Tracks_view_stable_witness :
  view (arrays state_second_append.1) (mkSlice 0 1 1) = [Some 1%positive] ∧
  view (arrays state_second_append.1) (localTracks (p_ state_second_append.1)) =
    [Some 1%positive; Some 2%positive].
Proof.
  split; [|vm_compute; reflexivity].
  rewrite (Tracks_view_stable "pub1" trace_tracks_called state_tracks_called 3
             (mkSlice 0 1 1) trace_second_append state_second_append);
    vm_compute; reflexivity.
Defined.

(** ** The copying goroutine *)

Lemma copy_turn w r l k buf packet wr :
  length packet ≤ length buf →
  ∃ buf', length buf' = length buf ∧
    run_thread [ReadRes (Some packet); WriteRes wr] w (TCopy r l k buf F_read) =
      Some (set_written (written w ++ [(l, packet)]) w, TCopy r l k buf' (after_write wr)).
Proof.
  intros Hlen. exists (packet ++ drop (length packet) buf).
  assert (length (packet ++ drop (length packet) buf) = length buf) as Hl.
  { rewrite length_app, length_drop. lia. }
  split; [done|]. simpl. rewrite decide_True by done. simpl.
  rewrite decide_True by lia. rewrite take_app_length.
  by destruct wr.
Qed.

Lemma run_thread_app es1 es2 w t :
  run_thread (es1 ++ es2) w t = '(w', t') ← run_thread es1 w t; run_thread es2 w' t'.
Proof.
  revert w t. induction es1 as [|e es1 IH]; intros w t; simpl; [done|].
  destruct (step_thread w t e) as [[[w' t'] new]|]; simpl; auto.
Qed.

Lemma copy_turns ios : ∀ w r l k buf,
  Forall (λ io, length io.1 ≤ length buf) ios →
  Forall (λ io, benign io.2 = true) ios →
  ∃ buf', length buf' = length buf ∧
    run_thread (copy_script ios) w (TCopy r l k buf F_read) =
      Some (set_written (written w ++ map (λ io, (l, io.1)) ios) w, TCopy r l k buf' F_read).
Proof.
  induction ios as [|[packet wr] ios IH]; intros w r l k buf Hsz Hb.
  - exists buf. split; [done|]. simpl. rewrite app_nil_r. by destruct w.
  - apply Forall_cons in Hsz as [Hsz1 Hsz]. apply Forall_cons in Hb as [Hb1 Hb].
    simpl in Hsz1, Hb1.
    destruct (copy_turn w r l k buf packet wr Hsz1) as (buf1 & Hl1 & Hrun1).
    rewrite <- Hl1 in Hsz.
    destruct (IH (set_written (written w ++ [(l, packet)]) w) r l k buf1 Hsz Hb)
      as (buf2 & Hl2 & Hrun2).
    exists buf2. split; [congruence|].
    change (copy_script ((packet, wr) :: ios))
      with ([ReadRes (Some packet); WriteRes wr] ++ copy_script ios).
    rewrite run_thread_app, Hrun1. simpl. unfold after_write. rewrite Hb1.
    rewrite Hrun2. simpl. by rewrite <- app_assoc.
Qed.

(** C6.  Let the loop meet the packets [ios] and then [last], each within
    the buffer, every write before the last one succeeding or failing with
    the closed-pipe error.  Then the writes made to the local track are
    exactly the packets read, in the order read; after the last write the
    goroutine is back at its read if that write succeeded or failed with
    the closed-pipe error, and on its way out otherwise. *)
Theorem copy_writes_what_it_reads ios last w r l k buf :
  Forall (λ io, length io.1 ≤ length buf) (ios ++ [last]) →
  Forall (λ io, benign io.2 = true) ios →
  ∃ buf',
    run_thread (copy_script (ios ++ [last])) w (TCopy r l k buf F_read) =
      Some (set_written (written w ++ map (λ io, (l, io.1)) (ios ++ [last])) w,
            TCopy r l k buf' (after_write last.2)).
Proof.
  intros [Hsz Hlast]%Forall_app Hb. apply Forall_inv in Hlast.
  destruct (copy_turns ios w r l k buf Hsz Hb) as (buf1 & Hl1 & Hrun1).
  rewrite <- Hl1 in Hlast.
  destruct (copy_turn (set_written (written w ++ map (λ io, (l, io.1)) ios) w)
              r l k buf1 last.1 last.2 Hlast) as (buf2 & Hl2 & Hrun2).
  exists buf2. unfold copy_script. rewrite flat_map_app.
  rewrite run_thread_app. fold (copy_script ios). rewrite Hrun1. simpl.
  simpl in Hrun2. rewrite Hrun2. rewrite map_app. simpl. by rewrite <- app_assoc.
Qed.

Lemma copy_writes_what_it_reads_witness :
  ∃ buf',
    run_thread
      (copy_script [(pk 200 Byte.x01, WriteErrClosedPipe); (pk 500 Byte.x02, WriteOk);
                    (pk 1200 Byte.x03, WriteErrOther)])
      (newWorld "pub1") (TCopy vid 1%positive 0 rtpBuf0 F_read) =
    Some (set_written [(1%positive, pk 200 Byte.x01); (1%positive, pk 500 Byte.x02);
                       (1%positive, pk 1200 Byte.x03)] (newWorld "pub1"),
          TCopy vid 1%positive 0 buf' (F_rlock WriteFailed)).
Proof.
  apply (copy_writes_what_it_reads
           [(pk 200 Byte.x01, WriteErrClosedPipe); (pk 500 Byte.x02, WriteOk)]
           (pk 1200 Byte.x03, WriteErrOther) (newWorld "pub1") vid 1%positive 0 rtpBuf0).
  - repeat constructor; simpl; unfold pk, rtpBuf0; rewrite !length_replicate; lia.
  - repeat constructor.
Defined.

(** C4, as stated, fails: a copying goroutine has returned although no
    read failed and [Close] was never called. *)
Lemma copy_exit_claim_fails :
  ¬ (∀ cid ls st i r l k buf why,
       run ls (init cid) = Some st →
       st.2 !! i = Some (TCopy r l k buf (F_ret why)) →
       why = ReadFailed ∨ closeOnce (p_ st.1) ≠ OnceIdle).
Proof.
  intros H.
  destruct (H "pub1" trace_write_fails state_write_failed 2 vid 1%positive 0
              (Byte.x01 :: replicate 1399 Byte.x00) WriteFailed) as [Hc | Hc].
  - vm_compute; reflexivity.
  - vm_compute; reflexivity.
  - discriminate Hc.
  - apply Hc. vm_compute; reflexivity.
Qed.

(** C4, amended.  A failed read, and a write failing with an error other
    than closed pipe, are steps that take the copying goroutine out of its
    loop.  A step of the goroutine that does not panic keeps it the same
    goroutine.  From inside the loop, the step leaves the loop exactly when
    it is one of those two; it does not touch the listener, and is the same
    whatever the listener's fields are, closed or not.  Once out of the
    loop the goroutine does not come back to it.  Its exit path is: take
    the read lock of [mu], waiting while it is held for writing; read the
    flag; if the flag is false, send Remove on the events channel, else
    skip the send; release the read lock; stop the ticker; return.  So the
    goroutine attempts to send Remove exactly when it reads
    [tracksChannelClosed] as false: no other step sends, the send is
    reached from the check and only with the flag false, with the flag set
    the exit path runs to its return and nothing is received, and with the
    flag not set and the channel open it runs to its return through the
    send, the router having received Remove. *)
Theorem copy_worker_exit w r l k buf pc e w' t' new :
  step_copy w r l k buf pc e = Some (w', t', new) →
  panicked w' = false →
  step_copy w r l k buf F_read (ReadRes None) =
    Some (w, TCopy r l k buf (F_rlock ReadFailed), []) ∧
  (∀ i, i ≤ length buf →
     step_copy w r l k buf (F_write i) (WriteRes WriteErrOther) =
       Some (set_written (written w ++ [(l, take i buf)]) w,
             TCopy r l k buf (F_rlock WriteFailed), [])) ∧
  (∀ why,
     step_copy w r l k buf (F_rlock why) Tau =
       if writer (mu (p_ w)) then None
       else Some (upd (set_mu (mkRW false (S (readers (mu (p_ w)))))) w,
                  TCopy r l k buf (F_check why), [])) ∧
  (∀ why,
     step_copy w r l k buf (F_check why) Tau =
       Some (w, TCopy r l k buf
                  (if tracksChannelClosed (p_ w) then F_runlock why else F_send why), [])) ∧
  (∀ why e0,
     step_copy w r l k buf (F_send why) e0 =
       if tracksChannel_closed (p_ w) then Some (panic w, TCopy r l k buf (F_send why), [])
       else if e0 is Recv then
         Some (set_received
                 (received w ++ [mkTrackEvent (clientID (p_ w)) l TrackEventTypeRemove]) w,
               TCopy r l k buf (F_runlock why), [])
       else None) ∧
  (∀ why,
     step_copy w r l k buf (F_runlock why) Tau =
       Some (upd (set_mu (RUnlock (mu (p_ w)))) w, TCopy r l k buf (F_stop why), [])) ∧
  (∀ why,
     step_copy w r l k buf (F_stop why) Tau =
       Some (set_tickers (alter ticker_Stop k (tickers w)) w,
             TCopy r l k buf (F_ret why), [])) ∧
  (∀ why e0, step_copy w r l k buf (F_ret why) e0 = None) ∧
  (∀ why, writer (mu (p_ w)) = false → tracksChannelClosed (p_ w) = true →
     run_thread [Tau; Tau; Tau; Tau] w (TCopy r l k buf (F_rlock why)) =
       Some (set_tickers (alter ticker_Stop k (tickers w)) w,
             TCopy r l k buf (F_ret why)) ∧
     run_thread [Tau; Tau; Recv] w (TCopy r l k buf (F_rlock why)) = None) ∧
  (∀ why, writer (mu (p_ w)) = false → tracksChannelClosed (p_ w) = false →
     tracksChannel_closed (p_ w) = false →
     run_thread [Tau; Tau; Recv; Tau; Tau] w (TCopy r l k buf (F_rlock why)) =
       Some (set_tickers (alter ticker_Stop k (tickers w))
               (set_received
                  (received w ++ [mkTrackEvent (clientID (p_ w)) l TrackEventTypeRemove]) w),
             TCopy r l k buf (F_ret why)) ∧
     run_thread [Tau; Tau; Tau] w (TCopy r l k buf (F_rlock why)) = None) ∧
  ∃ buf' pc', t' = TCopy r l k buf' pc' ∧ new = [] ∧
    (looping pc = true →
       (looping pc' = false ↔ e = ReadRes None ∨ e = WriteRes WriteErrOther) ∧
       p_ w' = p_ w ∧
       ∀ p', step_copy (set_p p' w) r l k buf pc e = Some (set_p p' w', t', new)) ∧
    (looping pc = false → looping pc' = false) ∧
    (∀ why, pc = F_rlock why → pc' = F_check why ∧ received w' = received w) ∧
    (∀ why, pc = F_check why →
       w' = w ∧
       pc' = if tracksChannelClosed (p_ w) then F_runlock why else F_send why) ∧
    (∀ why, pc = F_send why →
       pc' = F_runlock why ∧
       received w' = received w ++
         [mkTrackEvent (clientID (p_ w)) l TrackEventTypeRemove]) ∧
    (∀ why, pc' = F_send why → pc = F_check why ∧ tracksChannelClosed (p_ w) = false) ∧
    (received w' ≠ received w → ∃ why, pc = F_send why).
Proof.
  intros H Hp.
  destruct w as [p h tr tk rc wr rt pn]. destruct p as [cid lt ltm m c1 c2 c3 [mw mr] o].
  split; [done|]. split.
  { intros i Hi. simpl. by rewrite decide_True. }
  split; [intros why; by destruct mw|].
  split; [intros why; simpl; by destruct c2|].
  split; [intros why e0; simpl; destruct c1; [done | by destruct e0]|].
  split; [done|]. split; [done|]. split; [intros why e0; by destruct e0|].
  split; [simpl; by intros why -> ->|].
  split; [simpl; by intros why -> -> ->|].
  destruct pc, e; run_step H; simpl in *; try done;
    eexists _, _; (split; [reflexivity|]); (split; [reflexivity|]).
  all: repeat match goal with |- _ ∧ _ => split end.
  all: try done.
  all: try (intros ? [=]; subst; done).
  all: try (intros Hne; by destruct Hne).
  all: try (intros _; by eexists).
  all: try (intros _; repeat match goal with |- _ ∧ _ => split end; try done).
  all: try (simpl; split;
    [ intros Hx; first [discriminate Hx | by left | by right]
    | intros [Hx|Hx]; first [discriminate Hx | reflexivity] ]).
Qed.

Lemma copy_worker_exit_witness :
  ∃ buf' pc',
    TCopy vid 1%positive 0 rtpBuf0 (F_rlock WriteFailed) = TCopy vid 1%positive 0 buf' pc' ∧
    looping pc' = false.
Proof.
  destruct (copy_worker_exit (newWorld "pub1") vid 1%positive 0 rtpBuf0 (F_write 3)
              (WriteRes WriteErrOther)
              (set_written [(1%positive, take 3 rtpBuf0)] (newWorld "pub1"))
              (TCopy vid 1%positive 0 rtpBuf0 (F_rlock WriteFailed)) [])
    as (_ & _ & _ & _ & _ & _ & _ & _ & _ & _ & buf' & pc' & Ht & _ & Hloop & _).
  - vm_compute; reflexivity.
  - reflexivity.
  - exists buf', pc'. split; [exact Ht|].
    apply (proj1 (Hloop eq_refl)). right. reflexivity.
Defined.

(** ** RemoveTrack and AddTrack *)

(** C5, as stated, fails: the session rejects the removal, the call
    returns that error, and the entry of the track is gone all the same. *)
Lemma RemoveTrack_claim_fails :
  ¬ (∀ w track ok w' err,
       localTracksMu (p_ w) = rw_free → panicked w = false →
       is_Some (rtpSenderByTrack (p_ w) !! track) →
       RemoveTrack track ok w = Returned w' (TRemoveTrack track (R_ret err)) →
       (rtpSenderByTrack (p_ w') !! track = None ↔ err = None)).
Proof.
  intros H.
  destruct (H world_attached 1%positive false
              (upd (set_rtpSenderByTrack ∅) world_attached)
              (Some ErrSessionRemoveTrack)) as [Hc _].
  - reflexivity.
  - reflexivity.
  - by exists 7%positive.
  - vm_compute; reflexivity.
  - discriminate Hc. vm_compute; reflexivity.
Qed.

Lemma RemoveTrack_returns w track ok :
  localTracksMu (p_ w) = rw_free → panicked w = false →
  RemoveTrack track ok w =
    match rtpSenderByTrack (p_ w) !! track with
    | None => Returned w (TRemoveTrack track (R_ret (Some ErrCannotFindSender)))
    | Some _ =>
      Returned (upd (set_rtpSenderByTrack (delete track (rtpSenderByTrack (p_ w)))) w)
        (TRemoveTrack track (R_ret (if ok then None else Some ErrSessionRemoveTrack)))
    end.
Proof.
  destruct w as [p h tr tk rc wr rt pn]. destruct p as [cid lt ltm m c1 c2 c3 mu0 o].
  simpl. intros -> ->. unfold RemoveTrack. simpl.
  destruct (m !! track) as [s|] eqn:Hm; simpl; rewrite ?Hm; simpl; [|done].
  by destruct ok.
Qed.

(** C5, amended.  With [localTracksMu] free, [RemoveTrack] returns.  When
    no sender is recorded for the track it returns the cannot-find-sender
    error and the listener is as before.  When a sender is recorded it
    returns the error of the session exactly when the session rejects the
    removal, and the entry of the track is removed whether the session
    accepts or rejects; nothing else of the listener changes. *)
Theorem RemoveTrack_spec w track ok :
  localTracksMu (p_ w) = rw_free → panicked w = false →
  match rtpSenderByTrack (p_ w) !! track with
  | None =>
    RemoveTrack track ok w =
      Returned w (TRemoveTrack track (R_ret (Some ErrCannotFindSender)))
  | Some _ =>
    RemoveTrack track ok w =
      Returned (upd (set_rtpSenderByTrack (delete track (rtpSenderByTrack (p_ w)))) w)
        (TRemoveTrack track (R_ret (if ok then None else Some ErrSessionRemoveTrack))) ∧
    rtpSenderByTrack
      (p_ (upd (set_rtpSenderByTrack (delete track (rtpSenderByTrack (p_ w)))) w))
      !! track = None
  end.
Proof.
  intros Hfree Hp. rewrite RemoveTrack_returns by done.
  destruct (rtpSenderByTrack (p_ w) !! track); [|done].
  split; [done|]. destruct w. apply lookup_delete_eq.
Qed.

Lemma RemoveTrack_spec_witness :
  RemoveTrack 1%positive false world_attached =
    Returned (upd (set_rtpSenderByTrack (delete 1%positive {[1%positive := 7%positive]}))
                world_attached)
      (TRemoveTrack 1%positive (R_ret (Some ErrSessionRemoveTrack))).
Proof.
  exact (proj1 (RemoveTrack_spec world_attached 1%positive false eq_refl eq_refl)).
Defined.

(** [AddTrack] records the sender exactly when the session accepts the
    track, and a track attached and then removed has no entry. *)
Lemma AddTrack_spec w track session :
  localTracksMu (p_ w) = rw_free → panicked w = false →
  AddTrack track session w =
    match session with
    | Some rtpSender =>
      Returned (upd (set_rtpSenderByTrack (<[track := rtpSender]> (rtpSenderByTrack (p_ w)))) w)
        (TAddTrack track (A_ret None))
    | None => Returned w (TAddTrack track (A_ret (Some ErrAddingTrack)))
    end.
Proof.
  destruct w as [p h tr tk rc wr rt pn]. destruct p as [cid lt ltm m c1 c2 c3 mu0 o].
  simpl. intros -> ->. by destruct session.
Qed.

(** X12.  A track attached with [AddTrack] and then removed with
    [RemoveTrack] has no sender left, whatever the session answers to the
    removal. *)
Lemma AddTrack_RemoveTrack w track rtpSender ok w1 w2 err :
  localTracksMu (p_ w) = rw_free → panicked w = false →
  AddTrack track (Some rtpSender) w = Returned w1 (TAddTrack track (A_ret None)) →
  RemoveTrack track ok w1 = Returned w2 (TRemoveTrack track (R_ret err)) →
  rtpSenderByTrack (p_ w2) !! track = None.
Proof.
  intros Hfree Hp. rewrite AddTrack_spec by done. intros [= <-].
  rewrite RemoveTrack_returns.
  - destruct w as [p h tr tk rc wr rt pn]. simpl.
    rewrite lookup_insert_eq. intros [= <- _]. simpl. apply lookup_delete_eq.
  - by destruct w.
  - by destruct w.
Qed.

Lemma AddTrack_RemoveTrack_witness :
  ∃ w1 w2,
    AddTrack 1%positive (Some 7%positive) (newWorld "pub1") =
      Returned w1 (TAddTrack 1%positive (A_ret None)) ∧
    RemoveTrack 1%positive false w1 =
      Returned w2 (TRemoveTrack 1%positive (R_ret (Some ErrSessionRemoveTrack))) ∧
    rtpSenderByTrack (p_ w2) !! 1%positive = None.
Proof.
  pose proof (AddTrack_spec (newWorld "pub1") 1%positive (Some 7%positive) eq_refl eq_refl)
    as H1.
  assert (RemoveTrack 1%positive false
            (upd (set_rtpSenderByTrack (<[1%positive := 7%positive]>
                    (rtpSenderByTrack (p_ (newWorld "pub1"))))) (newWorld "pub1")) =
          Returned (newWorld "pub1")
            (TRemoveTrack 1%positive (R_ret (Some ErrSessionRemoveTrack)))) as H2
    by (vm_compute; reflexivity).
  eexists _, _. split; [exact H1|]. split; [exact H2|].
  exact (AddTrack_RemoveTrack (newWorld "pub1") 1%positive 7%positive false _ _ _
           eq_refl eq_refl H1 H2).
Defined.

(** ** The names of the local track *)

Lemma uuid_base62_nonempty u : uuid_base62 u = true → u ≠ EmptyString.
Proof.
  unfold uuid_base62. intros [H _]%andb_prop ->. done.
Qed.

Lemma NewUUIDBase62_spec uuids u rest :
  NewUUIDBase62 uuids = Some (u, rest) →
  uuids = u :: rest ∧ uuid_base62 u = true ∧ u ≠ EmptyString.
Proof.
  destruct uuids as [|u0 rest0]; simpl; [done|].
  destruct (uuid_base62 u0) eqn:Hu; [|done]. intros [= <- <-].
  split; [done|]. split; [done|]. by apply uuid_base62_nonempty.
Qed.

Lemma orUUID_spec s uuids x rest :
  orUUID s uuids = Some (x, rest) →
  (s ≠ EmptyString ∧ x = s ∧ rest = uuids) ∨
  (s = EmptyString ∧ uuids = x :: rest ∧ uuid_base62 x = true ∧ x ≠ EmptyString).
Proof.
  unfold orUUID. destruct (String.eqb_spec s EmptyString) as [-> | Hne].
  - intros H%NewUUIDBase62_spec. by right.
  - intros [= <- <-]. by left.
Qed.

Lemma orUUID_total s u rest :
  uuid_base62 u = true → orUUID s (draws s u ++ rest) = Some (orGiven s u, rest).
Proof.
  intros Hu. unfold orUUID, draws, orGiven.
  destruct (String.eqb_spec s EmptyString) as [-> | Hne].
  - rewrite decide_True by done. simpl. by rewrite Hu.
  - by rewrite !decide_False by done.
Qed.

Lemma orGiven_nonempty s u : uuid_base62 u = true → orGiven s u ≠ EmptyString.
Proof.
  intros Hu. unfold orGiven. case_decide; [by apply uuid_base62_nonempty | done].
Qed.

Lemma created_track_names w r uuids localTrack w' t' new :
  step_handleTrack w r H_start (NewTrackRes uuids (Some localTrack)) = Some (w', t', new) →
  ∃ remoteTrackID remoteTrackLabel,
    tracks w' !! localTrack =
      Some (mkLocal (r_payloadType r) (r_ssrc r) ("sfu_" +:+ remoteTrackID)
              ("sfu_" +:+ clientID (p_ w) +:+ "_" +:+ remoteTrackLabel)) ∧
    (r_id r ≠ EmptyString → remoteTrackID = r_id r) ∧
    (r_id r = EmptyString → uuid_base62 remoteTrackID = true ∧ remoteTrackID ≠ EmptyString) ∧
    (r_label r ≠ EmptyString → remoteTrackLabel = r_label r) ∧
    (r_label r = EmptyString →
       uuid_base62 remoteTrackLabel = true ∧ remoteTrackLabel ≠ EmptyString) ∧
    uuids = draws (r_id r) remoteTrackID ++ draws (r_label r) remoteTrackLabel.
Proof.
  simpl. unfold startCopyingTrack_names, draws.
  destruct (orUUID (r_id r) uuids) as [[rid u1]|] eqn:H1; simpl; [|done].
  destruct (orUUID (r_label r) u1) as [[rlabel u2]|] eqn:H2; simpl; [|done].
  destruct u2; [|done]. destruct (tracks w !! localTrack) eqn:Hfresh; [done|].
  intros [= <- <- <-]. exists rid, rlabel. simpl.
  split; [apply lookup_insert_eq|].
  apply orUUID_spec in H1, H2.
  destruct H1 as [(Hn1 & -> & ->) | (He1 & -> & Hu1 & Hne1)];
    destruct H2 as [(Hn2 & -> & E2) | (He2 & E2 & Hu2 & Hne2)];
    repeat case_decide; simplify_eq; done.
Qed.

(** C7.  Let [handleTrack] get a remote track, with [u1] and [u2] the
    results of [NewUUIDBase62] where it is called, and let [NewTrack]
    succeed.  The handler's first step is then taken, and the local track
    it makes has the payload type and the SSRC of the remote one, the ID
    ["sfu_"] followed by the remote ID, and the label ["sfu_"], the client
    ID, ["_"] and the remote label, where a remote ID or label that is
    empty is replaced by the result of a call of [NewUUIDBase62] of its
    own, non-empty and in base 62.  No creation of a local track gives
    names of another form or makes another such call. *)
Theorem local_track_names w r u1 u2 localTrack :
  uuid_base62 u1 = true → uuid_base62 u2 = true →
  tracks w !! localTrack = None →
  let remoteTrackID := orGiven (r_id r) u1 in
  let remoteTrackLabel := orGiven (r_label r) u2 in
  (∃ w',
     step_handleTrack w r H_start
       (NewTrackRes (draws (r_id r) u1 ++ draws (r_label r) u2) (Some localTrack)) =
       Some (w', THandleTrack r (H_lock localTrack),
             [TPLI (r_ssrc r) (length (tickers w)) P_first;
              TCopy r localTrack (length (tickers w)) rtpBuf0 F_read]) ∧
     tracks w' !! localTrack =
       Some (mkLocal (r_payloadType r) (r_ssrc r) ("sfu_" +:+ remoteTrackID)
               ("sfu_" +:+ clientID (p_ w) +:+ "_" +:+ remoteTrackLabel))) ∧
  remoteTrackID ≠ EmptyString ∧ remoteTrackLabel ≠ EmptyString ∧
  (r_id r ≠ EmptyString → remoteTrackID = r_id r) ∧
  (r_label r ≠ EmptyString → remoteTrackLabel = r_label r) ∧
  (∀ uuids w' t' new,
     step_handleTrack w r H_start (NewTrackRes uuids (Some localTrack)) = Some (w', t', new) →
     ∃ rid rlabel,
       tracks w' !! localTrack =
         Some (mkLocal (r_payloadType r) (r_ssrc r) ("sfu_" +:+ rid)
                 ("sfu_" +:+ clientID (p_ w) +:+ "_" +:+ rlabel)) ∧
       (r_id r ≠ EmptyString → rid = r_id r) ∧
       (r_id r = EmptyString → uuid_base62 rid = true ∧ rid ≠ EmptyString) ∧
       (r_label r ≠ EmptyString → rlabel = r_label r) ∧
       (r_label r = EmptyString → uuid_base62 rlabel = true ∧ rlabel ≠ EmptyString) ∧
       uuids = draws (r_id r) rid ++ draws (r_label r) rlabel).
Proof.
  intros Hu1 Hu2 Hfresh. simpl.
  split; [|split; [|split; [|split; [|split]]]].
  - eexists. unfold startCopyingTrack_names.
    rewrite (orUUID_total _ _ _ Hu1). simpl.
    rewrite <- (app_nil_r (draws (r_label r) u2)).
    rewrite (orUUID_total _ _ _ Hu2). simpl. rewrite Hfresh.
    split; [reflexivity|]. simpl. apply lookup_insert_eq.
  - by apply orGiven_nonempty.
  - by apply orGiven_nonempty.
  - intros Hne. unfold orGiven. by rewrite decide_False.
  - intros Hne. unfold orGiven. by rewrite decide_False.
  - intros uuids w' t' new Hstep. by eapply created_track_names.
Qed.

Lemma local_track_names_witness :
  ∃ w',
    step_handleTrack (newWorld "pub1") anon H_start
      (NewTrackRes ["2Ab"; "9zZ"]%string (Some 1%positive)) =
      Some (w', THandleTrack anon (H_lock 1%positive),
            [TPLI 12345 0 P_first; TCopy anon 1%positive 0 rtpBuf0 F_read]) ∧
    tracks w' !! 1%positive = Some (mkLocal 96 12345 "sfu_2Ab" "sfu_pub1_9zZ").
Proof.
  exact (proj1 (local_track_names (newWorld "pub1") anon "2Ab" "9zZ" 1%positive
                  eq_refl eq_refl eq_refl)).
Defined.

(** ** Counting *)

Lemma tally_app {A} (f : A → nat) l1 l2 : tally f (l1 ++ l2) = tally f l1 + tally f l2.
Proof. induction l1 as [|x l1 IH]; simpl; lia. Qed.

Lemma tally_insert {A} (f : A → nat) l i x y :
  l !! i = Some x → tally f (<[i:=y]> l) + f x = tally f l + f y.
Proof.
  revert i. induction l as [|a l IH]; intros [|i] H; simpl in *; try done.
  - injection H as ->. lia.
  - specialize (IH _ H). lia.
Qed.

Lemma tally_rest_le {A} (f g : A → nat) l i x :
  l !! i = Some x → (∀ y, f y ≤ g y) → tally f l + g x ≤ tally g l + f x.
Proof.
  intros Hi Hle. revert i Hi. induction l as [|a l IH]; intros [|i] H; simpl in *; try done.
  - injection H as ->. clear IH. induction l as [|b l IH]; simpl; [lia|].
    specialize (Hle b). lia.
  - specialize (IH _ H). specialize (Hle a). lia.
Qed.

Lemma tally_le2 {A} (f g h : A → nat) l :
  (∀ y, f y ≤ g y + h y) → tally f l ≤ tally g l + tally h l.
Proof. intros Hle. induction l as [|a l IH]; simpl; [lia|]. specialize (Hle a). lia. Qed.

Lemma tally_le {A} (f g : A → nat) l : (∀ y, f y ≤ g y) → tally f l ≤ tally g l.
Proof. intros Hle. induction l as [|a l IH]; simpl; [lia|]. specialize (Hle a). lia. Qed.

Lemma tally_lookup {A} (f : A → nat) l i x : l !! i = Some x → f x ≤ tally f l.
Proof.
  revert i. induction l as [|a l IH]; intros [|i] H; simpl in *; try done.
  - injection H as ->. lia.
  - specialize (IH _ H). lia.
Qed.

Lemma signalled_le t : signalled t ≤ in_Do t.
Proof. destruct t as [[]| | | | | | |]; simpl; lia. Qed.

Lemma holds_Lock_le t : holds_Lock t ≤ in_Do t.
Proof. destruct t as [[]| | | | | | |]; simpl; lia. Qed.

Lemma closed_events_le t : closed_events t ≤ in_Do t.
Proof. destruct t as [[]| | | | | | |]; simpl; lia. Qed.

Lemma flag_set_le t : flag_set t ≤ in_Do t.
Proof. destruct t as [[]| | | | | | |]; simpl; lia. Qed.

Lemma closed_events_le2 t : closed_events t ≤ flag_set t + holds_Lock t.
Proof. destruct t as [[]| | | | | | |]; simpl; lia. Qed.

Lemma copy_ok_no_reader b b' ts :
  tally holds_RLock ts = 0 → Forall (copy_ok b) ts → Forall (copy_ok b') ts.
Proof.
  induction ts as [|t ts IH]; intros H0 HF; [constructor|].
  apply Forall_cons in HF as [Ht HF]. simpl in H0. constructor; [|apply IH; first [lia | done]].
  destruct t as [| | r l k buf pc | | | | |]; try done.
  destruct pc; simpl in *; done.
Qed.

(** ** The locks and [closeOnce] *)

Ltac tally_facts ts i t t' Hi :=
  pose proof (tally_insert in_Do ts i t t' Hi);
  pose proof (tally_insert signalled ts i t t' Hi);
  pose proof (tally_insert holds_Lock ts i t t' Hi);
  pose proof (tally_insert holds_RLock ts i t t' Hi);
  pose proof (tally_insert closed_events ts i t t' Hi);
  pose proof (tally_insert flag_set ts i t t' Hi);
  pose proof (tally_rest_le signalled in_Do ts i t Hi signalled_le);
  pose proof (tally_rest_le holds_Lock in_Do ts i t Hi holds_Lock_le);
  pose proof (tally_rest_le closed_events in_Do ts i t Hi closed_events_le);
  pose proof (tally_rest_le flag_set in_Do ts i t Hi flag_set_le);
  pose proof (tally_lookup in_Do ts i t Hi);
  pose proof (tally_lookup holds_Lock ts i t Hi);
  pose proof (tally_lookup holds_RLock ts i t Hi).

Lemma bn_le b : bn b ≤ 1.
Proof. destruct b; simpl; lia. Qed.

Lemma thread_step_lock_inv w ts i t e w' t' new :
  ts !! i = Some t → step_thread w t e = Some (w', t', new) →
  lock_inv (w, ts) → lock_inv (w', <[i:=t']> ts ++ new).
Proof.
  intros Hi Hstep. revert Hi.
  destruct w as [p h tr tk rc wr rt pn]. destruct p as [cid lt ltm m c1 c2 c3 [mw mr] o].
  destruct t as [pc|r pc|r l k b pc|s k pc|tr0 pc|tr0 pc|pc|ev pc]; simpl in Hstep;
    destruct pc, e; try discriminate Hstep; run_step Hstep.
  all: unpack; simplify_eq/=.
  all: try match goal with
    | H : (if ?b then _ else _) = Some _ |- _ => destruct b; simplify_eq/=
    end.
  all: intros Hi (I1 & I2 & I3 & I4 & I5 & I6 & I7 & I8).
  all: pose proof (Forall_lookup_1 _ _ _ _ I8 Hi) as Hok.
  all: match goal with |- lock_inv (_, <[_:=?t']> _ ++ _) =>
         match type of Hi with _ !! _ = Some ?t => tally_facts ts i t t' Hi end end.
  all: try pose proof (bn_le c1); try pose proof (bn_le c2); try pose proof (bn_le c3);
    try pose proof (bn_le mw).
  all: unfold lock_inv; simpl in *; rewrite !tally_app; simpl.
  all: try (destruct o; simpl in *).
  all: repeat match goal with |- _ ∧ _ => split end; try lia.
  all: rewrite ?app_nil_r.
  all: try (apply Forall_insert; [done|]; simpl in *; tauto).
  all: try (apply Forall_insert; [|done]; eapply copy_ok_no_reader; [|done]; lia).
  all: try (apply Forall_app; split; [by apply Forall_insert | by repeat constructor]).
  all: try (apply Forall_insert; [done|]; simpl;
            rewrite length_app, length_drop; split; lia).
Qed.

Lemma init_lock_inv cid : lock_inv (init cid).
Proof. unfold lock_inv; simpl. repeat split; auto. Qed.

Lemma step_lock_inv l st st' : step l st = Some st' → lock_inv st → lock_inv st'.
Proof.
  destruct st as [w ts]. unfold step. destruct (panicked w); [done|].
  intros H Hinv. destruct l as [c | i e | k].
  - injection H as <-. destruct Hinv as (I1 & I2 & I3 & I4 & I5 & I6 & I7 & I8).
    unfold lock_inv in *. simpl in *. rewrite !tally_app.
    assert (in_Do (enter c) = 0 ∧ signalled (enter c) = 0 ∧ holds_Lock (enter c) = 0 ∧
            holds_RLock (enter c) = 0 ∧ closed_events (enter c) = 0 ∧
            flag_set (enter c) = 0 ∧ copy_ok (tracksChannelClosed (p_ w)) (enter c))
      as (E1 & E2 & E3 & E4 & E5 & E6 & E7) by (by destruct c).
    simpl. rewrite E1, E2, E3, E4, E5, E6.
    repeat match goal with |- _ ∧ _ => split end; try lia.
    apply Forall_app. split; [done|]. by constructor.
  - destruct (ts !! i) as [t|] eqn:Hi; simpl in H; [|done].
    destruct (step_thread w t e) as [[[w' t'] new]|] eqn:Hstep; simpl in H; [|done].
    injection H as <-. by eapply thread_step_lock_inv.
  - destruct (tickers w !! k) as [t|]; simpl in H; [|done].
    injection H as <-. by destruct w.
Qed.

Lemma run_lock_inv ls st st' : run ls st = Some st' → lock_inv st → lock_inv st'.
Proof.
  revert st. induction ls as [|l ls IH]; intros st H Hinv; simpl in H.
  - by injection H as <-.
  - destruct (step l st) as [st1|] eqn:Hs; simpl in H; [|done].
    eapply IH; [done|]. by eapply step_lock_inv.
Qed.

Lemma thread_step_panic w ts i t e w' t' new :
  ts !! i = Some t → lock_inv (w, ts) →
  step_thread w t e = Some (w', t', new) →
  panicked w = false → panicked w' = true →
  ∃ r localTrack, t = THandleTrack r (H_send localTrack) ∧
    tracksChannel_closed (p_ w) = true.
Proof.
  intros Hi Hinv Hstep. revert Hi Hinv.
  destruct w as [p h tr tk rc wr rt pn]. destruct p as [cid lt ltm m c1 c2 c3 [mw mr] o].
  destruct t as [pc|r pc|r l k b pc|s k pc|tr0 pc|tr0 pc|pc|ev pc]; simpl in Hstep;
    destruct pc, e; try discriminate Hstep; run_step Hstep.
  all: intros Hi Hinv Hp Hp'; simpl in Hp, Hp'; try congruence.
  all: try (by eexists _, _).
  all: destruct Hinv as (I1 & I2 & I3 & I4 & I5 & I6 & I7 & I8).
  all: pose proof (Forall_lookup_1 _ _ _ _ I8 Hi) as Hok.
  all: pose proof (tally_rest_le signalled in_Do ts i _ Hi signalled_le).
  all: pose proof (tally_rest_le closed_events in_Do ts i _ Hi closed_events_le).
  all: pose proof (tally_lookup in_Do ts i _ Hi).
  all: pose proof (tally_lookup holds_RLock ts i _ Hi).
  all: pose proof (tally_le2 closed_events flag_set holds_Lock ts closed_events_le2).
  all: simpl in *.
  all: try (destruct o; simpl in *; lia).
  all: try (destruct Hok as [Hlen Hc]; simplify_eq/=; destruct o; simpl in *; lia).
Qed.

(** X1.  The only step that can panic is the send of the Add event in
    [handleTrack], on the closed events channel: no reachable state has a
    [Close] that closes a closed channel, a copying goroutine that slices
    its buffer out of range, or a deferred send of Remove on the closed
    events channel. *)
Theorem only_the_Add_send_panics cid ls st l st' :
  run ls (init cid) = Some st →
  step l st = Some st' →
  panicked st'.1 = true →
  ∃ i e r localTrack, l = Step i e ∧
    st.2 !! i = Some (THandleTrack r (H_send localTrack)) ∧
    tracksChannel_closed (p_ st.1) = true.
Proof.
  intros Hrun Hstep Hp'.
  pose proof (run_lock_inv _ _ _ Hrun (init_lock_inv cid)) as Hinv.
  destruct st as [w ts]. unfold step in Hstep.
  destruct (panicked w) eqn:Hp; [done|]. destruct l as [c | i e | k].
  - injection Hstep as <-. simpl in Hp'. congruence.
  - destruct (ts !! i) as [t|] eqn:Hi; simpl in Hstep; [|done].
    destruct (step_thread w t e) as [[[w' t'] new]|] eqn:Hs; simpl in Hstep; [|done].
    injection Hstep as <-. simpl in Hp'.
    destruct (thread_step_panic _ _ _ _ _ _ _ _ Hi Hinv Hs Hp Hp') as (r & lt & -> & Hc).
    by exists i, e, r, lt.
  - destruct (tickers w !! k) as [t|]; simpl in Hstep; [|done].
    injection Hstep as <-. destruct w. simpl in *. congruence.
Qed.

Lemma only_the_Add_send_panics_witness :
  ∃ i e r localTrack, Step 0 Tau = Step i e ∧
    state_events_closed.2 !! i = Some (THandleTrack r (H_send localTrack)) ∧
    tracksChannel_closed (p_ state_events_closed.1) = true.
Proof.
  apply (only_the_Add_send_panics "pub1"
           (trace_send_blocked ++ [Step 3 Tau; Step 3 Tau]) state_events_closed
           (Step 0 Tau)
           (panic state_events_closed.1, state_events_closed.2));
    vm_compute; reflexivity.
Defined.

(** X2.  In every reachable state at most one [Close] is inside the
    function it gives to [closeOnce.Do]; [mu] is held for writing exactly
    when that [Close] is between its [Lock] and its [Unlock], the number of
    its readers is the number of copying goroutines between [RLock] and
    [RUnlock] of their deferred function, and it never has a writer and a
    reader at once. *)
Theorem mu_discipline cid ls st :
  run ls (init cid) = Some st →
  tally in_Do st.2 ≤ 1 ∧
  tally holds_Lock st.2 ≤ tally in_Do st.2 ∧
  bn (writer (mu (p_ st.1))) = tally holds_Lock st.2 ∧
  readers (mu (p_ st.1)) = tally holds_RLock st.2 ∧
  (writer (mu (p_ st.1)) = true → readers (mu (p_ st.1)) = 0).
Proof.
  intros Hrun.
  destruct (run_lock_inv _ _ _ Hrun (init_lock_inv cid))
    as (I1 & I2 & I3 & I4 & I5 & I6 & I7 & I8).
  pose proof (tally_le holds_Lock in_Do st.2 holds_Lock_le) as Hle.
  split; [rewrite I1; destruct (closeOnce (p_ st.1)); simpl; lia|].
  split; [lia|]. split; [done|]. split; [done|].
  intros Hw. rewrite Hw in I3. simpl in I3. lia.
Qed.

Lemma mu_discipline_witness :
  readers (mu (p_ state_remove_pending.1)) = 1 ∧
  tally holds_RLock state_remove_pending.2 = 1.
Proof.
  assert (run trace_remove_pending (init "pub1") =
          Some state_remove_pending) as HR by (vm_compute; reflexivity).
  destruct (mu_discipline _ _ _ HR) as (_ & _ & _ & H4 & _).
  split; [vm_compute; reflexivity|]. rewrite <- H4. vm_compute; reflexivity.
Defined.

(** X3.  While a copying goroutine waits in the send of its Remove event,
    the events channel is open and the flag is not set, no call of [Close]
    has returned or holds [mu], and a [Close] that has reached its [Lock]
    has no step: [Close] cannot finish before the router has taken that
    event. *)
Theorem Close_waits_for_Remove_send cid ls st i r l k buf why :
  run ls (init cid) = Some st →
  st.2 !! i = Some (TCopy r l k buf (F_send why)) →
  tracksChannel_closed (p_ st.1) = false ∧
  tracksChannelClosed (p_ st.1) = false ∧
  closeOnce (p_ st.1) ≠ OnceDone ∧
  (∀ j pc, st.2 !! j = Some (TClose pc) → pc = C_once ∨ pc = C_signal ∨ pc = C_lock) ∧
  (∀ j e, st.2 !! j = Some (TClose C_lock) → step (Step j e) st = None).
Proof.
  intros Hrun Hi.
  destruct (run_lock_inv _ _ _ Hrun (init_lock_inv cid))
    as (I1 & I2 & I3 & I4 & I5 & I6 & I7 & I8).
  destruct (run_inv _ _ _ Hrun (init_inv cid)) as [[Hw Hts] _].
  pose proof (Forall_lookup_1 _ _ _ _ I8 Hi) as [_ Hflag]. simpl in Hflag.
  pose proof (tally_lookup holds_RLock _ _ _ Hi) as Hr. simpl in Hr.
  pose proof (tally_le2 closed_events flag_set holds_Lock st.2 closed_events_le2) as Hce.
  rewrite Hflag in I6. simpl in I6.
  assert (tally holds_Lock st.2 = 0) as HL by lia.
  assert (closeOnce (p_ st.1) ≠ OnceDone) as Hnd.
  { intros Hd. rewrite Hd in I6. simpl in I6. lia. }
  split; [|split; [done|split; [done|split]]].
  - destruct (tracksChannel_closed (p_ st.1)); [|done]. simpl in I5. lia.
  - intros j pc Hj.
    pose proof (tally_lookup holds_Lock _ _ _ Hj) as H1.
    pose proof (tally_lookup flag_set _ _ _ Hj) as H2.
    pose proof (Forall_lookup_1 _ _ _ _ Hts Hj) as H3.
    destruct pc; simpl in *; auto; try lia. done.
  - intros j e Hj. destruct st as [w ts]. simpl in *.
    destruct (panicked w); [done|]. rewrite Hj. simpl.
    destruct e; try done. simpl.
    destruct (mu (p_ w)) as [mw mr]. simpl in *. unfold Lock. simpl.
    destruct mw; [done|]. destruct mr; [lia | done].
Qed.

Lemma Close_waits_for_Remove_send_witness :
  state_remove_pending.2 !! 2 = Some (TCopy vid 1%positive 0 rtpBuf0 (F_send ReadFailed)) ∧
  state_remove_pending.2 !! 3 = Some (TClose C_lock) ∧
  step (Step 3 Tau) state_remove_pending = None.
Proof.
  assert (run trace_remove_pending (init "pub1") =
          Some state_remove_pending) as HR by (vm_compute; reflexivity).
  assert (state_remove_pending.2 !! 2 =
          Some (TCopy vid 1%positive 0 rtpBuf0 (F_send ReadFailed))) as Hi
    by (vm_compute; reflexivity).
  assert (state_remove_pending.2 !! 3 = Some (TClose C_lock)) as Hj
    by (vm_compute; reflexivity).
  destruct (Close_waits_for_Remove_send _ _ _ _ _ _ _ _ _ HR Hi) as (_ & _ & _ & _ & H5).
  split; [exact Hi|]. split; [exact Hj|]. exact (H5 3 Tau Hj).
Defined.



(** ** Where tracks, events, writes and PLIs come from *)

Lemma copy_of_mono w w' r l : tracks w ⊆ tracks w' → copy_of w r l → copy_of w' r l.
Proof.
  intros Hsub (t & Ht & H1 & H2). exists t. split; [|done].
  by eapply lookup_weaken.
Qed.

Lemma thread_prov_mono w w' t : prov_le w w' → thread_prov w t → thread_prov w' t.
Proof.
  intros [Hsub Hlen] H.
  destruct t as [pc|r pc|r l k b pc|s k pc|tr0 pc|tr0 pc|pc|ev pc]; simpl in *; auto.
  - destruct pc; auto; by eapply copy_of_mono.
  - destruct H as (H1 & H2 & H3). split; [by eapply copy_of_mono|]. split; [lia | done].
  - destruct H as ((l & t & Ht & Hs) & Hk). split; [|lia].
    exists l, t. split; [by eapply lookup_weaken | done].
Qed.

Lemma prov_le_refl w : prov_le w w.
Proof. split; done. Qed.

Lemma start_prov cid w r uuids x w' t' new :
  step_handleTrack w r H_start (NewTrackRes uuids x) = Some (w', t', new) →
  world_prov cid w →
  world_prov cid w' ∧ prov_le w w' ∧ thread_prov w' t' ∧ Forall (thread_prov w') new.
Proof.
  intros Hstep Hw.
  destruct x as [l|]; cycle 1.
  { simpl in Hstep. run_step Hstep.
    split; [done|]. split; [apply prov_le_refl|]. split; [done | constructor]. }
  destruct Hw as (P1 & P2 & P3 & P4 & P5 & P6).
  destruct (created_track_names _ _ _ _ _ _ _ Hstep)
    as (rid & rlabel & Hl & Hi1 & Hi2 & Hl1 & Hl2 & _).
  assert (rid ≠ EmptyString) as Hrid.
  { destruct (decide (r_id r = EmptyString)) as [E|E]; [by apply Hi2 | by rewrite Hi1]. }
  assert (rlabel ≠ EmptyString) as Hrlabel.
  { destruct (decide (r_label r = EmptyString)) as [E|E]; [by apply Hl2 | by rewrite Hl1]. }
  simpl in Hstep.
  destruct (startCopyingTrack_names (clientID (p_ w)) r uuids) as [[[lid llabel] rest]|];
    simpl in Hstep; [|done].
  destruct rest; [|done]. destruct (tracks w !! l) eqn:Hfresh; [done|].
  injection Hstep as <- <- <-.
  destruct w as [p h tr tk rc wr rt pn]. simpl in *.
  rewrite lookup_insert_eq in Hl. injection Hl as -> ->.
  assert (tr ⊆ <[l:=mkLocal (r_payloadType r) (r_ssrc r) ("sfu_" +:+ rid)
                      ("sfu_" +:+ clientID p +:+ "_" +:+ rlabel)]> tr) as Hsub
    by (by apply insert_subseteq).
  assert (copy_of (mkWorld p h (<[l:=mkLocal (r_payloadType r) (r_ssrc r) ("sfu_" +:+ rid)
                      ("sfu_" +:+ clientID p +:+ "_" +:+ rlabel)]> tr)
                    (tk ++ [NewTicker]) rc wr rt pn) r l) as Hcopy.
  { eexists. simpl. rewrite lookup_insert_eq. done. }
  split; [|split; [|split]].
  - unfold world_prov. simpl. split; [done|]. split; [|split; [|split; [|split]]].
    + intros l0 t0. destruct (decide (l = l0)) as [<-|Hne].
      * rewrite lookup_insert_eq. intros [= <-]. exists rid, rlabel. simpl.
        rewrite P1. done.
      * rewrite lookup_insert_ne by done. apply P2.
    + intros ev Hin. destruct (P3 ev Hin) as [H1 [t0 H2]]. split; [done|].
      exists t0. by eapply lookup_weaken.
    + intros l0 b Hin. destruct (P4 l0 b Hin) as [[t0 H1] H2]. split; [|done].
      exists t0. by eapply lookup_weaken.
    + intros s Hin. destruct (P5 s Hin) as (l0 & t0 & H1 & H2).
      exists l0, t0. split; [by eapply lookup_weaken | done].
    + intros x Hin. destruct (P6 x Hin) as (l0 & -> & t0 & H1).
      exists l0. split; [done|]. exists t0. by eapply lookup_weaken.
  - split; simpl; [done|]. rewrite length_app. simpl. lia.
  - done.
  - constructor; [|constructor; [|constructor]]; simpl.
    + split; [|rewrite length_app; simpl; lia].
      eexists l, _. rewrite lookup_insert_eq. done.
    + split; [done|]. split; [rewrite length_app; simpl; lia|].
      split; [|done]. unfold rtpBuf0. rewrite ?length_replicate. reflexivity.
Qed.

Ltac prov_goal :=
  match goal with
  | |- ∀ ev : TrackEvent, ev ∈ _ ++ [_] → _ =>
    let Hin := fresh in
    intros ev [Hin | ->%list_elem_of_singleton]%elem_of_app; [auto|]; simpl
  | |- ∀ (l : TrackPtr) (b : list Byte.byte), (l, b) ∈ _ ++ [_] → _ =>
    let Hin := fresh in
    intros ? ? [Hin | [= -> ->]%list_elem_of_singleton]%elem_of_app; [auto|]; simpl
  | |- ∀ s : N, s ∈ _ ++ [_] → _ =>
    let Hin := fresh in
    intros ? [Hin | ->%list_elem_of_singleton]%elem_of_app; [auto|]; simpl
  end.

Ltac open_hyps :=
  repeat match goal with
  | H : _ ∧ _ |- _ => destruct H
  | H : ∃ _, _ |- _ => destruct H
  end.

Lemma thread_step_prov cid w t e w' t' new :
  step_thread w t e = Some (w', t', new) → prov_spec cid w t w' t' new.
Proof.
  intros Hstep.
  destruct t as [pc|r pc|r l k b pc|s k pc|tr0 pc|tr0 pc|pc|ev pc]; simpl in Hstep.
  2: destruct pc, e; try discriminate Hstep;
       try (intros _ Hw _; by eapply start_prov).
  all: destruct w as [p h tr tk rc wr rt pn]; destruct p as [c lt ltm m c1 c2 c3 mu0 o].
  all: try destruct pc; try destruct e; try discriminate Hstep; run_step Hstep.
  all: intros Hwf (P1 & P2 & P3 & P4 & P5 & P6) Ht.
  all: unfold world_prov, prov_le in *; simpl in *; unfold copy_of in *; simpl in *;
    open_hyps; subst.
  all: repeat match goal with |- _ ∧ _ => split end; try done; try lia; eauto.
  all: try prov_goal.
  all: rewrite ?length_insert, ?length_alter, ?length_app, ?length_drop, ?length_take;
    try lia; eauto.
  all: try (split; [eauto | rewrite ?length_take; lia]).
  all: try match goal with
    | E : append _ _ _ = _, W : slice_wf _ _ |- _ =>
      destruct (append_spec _ _ _ _ _ E W) as (Hv & _ & _); rewrite Hv;
      intros ? [Hin | ->%list_elem_of_singleton]%elem_of_app; eauto
    end.
  all: try (split; [reflexivity|]); try (eexists; split; [reflexivity|]).
  all: eexists; eassumption.
Qed.

Lemma init_prov_inv cid : prov_inv cid (init cid).
Proof.
  split; [|constructor]. unfold world_prov. simpl.
  split; [done|]. split; [|split; [|split; [|split]]].
  - intros l t. by rewrite lookup_empty.
  - intros ev Hin. by apply elem_of_nil in Hin.
  - intros l b Hin. by apply elem_of_nil in Hin.
  - intros s Hin. by apply elem_of_nil in Hin.
  - intros x Hin. by apply elem_of_nil in Hin.
Qed.

Lemma step_prov_inv cid l st st' :
  step l st = Some st' → inv st → prov_inv cid st → prov_inv cid st'.
Proof.
  destruct st as [w ts]. unfold step. destruct (panicked w); [done|].
  intros H [Hok _] [Hw Hts]. simpl in *. destruct l as [c | i e | k].
  - injection H as <-. split; [done|]. simpl.
    apply Forall_app. split; [done|]. constructor; [by destruct c | constructor].
  - destruct (ts !! i) as [t|] eqn:Hi; simpl in H; [|done].
    destruct (step_thread w t e) as [[[w' t'] new]|] eqn:Hstep; simpl in H; [|done].
    injection H as <-.
    destruct Hok as (_&_&_&Hwf&_).
    pose proof (Forall_lookup_1 _ _ _ _ Hts Hi) as Ht.
    destruct (thread_step_prov cid _ _ _ _ _ _ Hstep Hwf Hw Ht) as (Hw' & Hle & Ht' & Hnew).
    split; [done|]. simpl. apply Forall_app. split; [|done].
    apply Forall_insert; [|done].
    eapply Forall_impl; [exact Hts|]. intros t0. by apply thread_prov_mono.
  - destruct (tickers w !! k) as [t|] eqn:Hk; simpl in H; [|done].
    injection H as <-. split.
    + by destruct w.
    + simpl. eapply Forall_impl; [exact Hts|]. intros t0. apply thread_prov_mono.
      destruct w; split; simpl; [done|]. by rewrite length_insert.
Qed.

Lemma run_prov_inv cid ls st st' :
  run ls st = Some st' → inv st → prov_inv cid st → prov_inv cid st'.
Proof.
  revert st. induction ls as [|l ls IH]; intros st H Hinv Hp; simpl in H.
  - by injection H as <-.
  - destruct (step l st) as [st1|] eqn:Hs; simpl in H; [|done].
    eapply IH; [done | by eapply step_inv | by eapply step_prov_inv].
Qed.

Lemma reachable_prov_inv cid ls st : run ls (init cid) = Some st → prov_inv cid st.
Proof. intros H. eapply run_prov_inv; [done | apply init_inv | apply init_prov_inv]. Qed.


(** ** One Add, one Remove and one append for each track *)

Lemma thread_step_token l w ts i t e w' t' new :
  ts !! i = Some t → step_thread w t e = Some (w', t', new) →
  thread_ok w t → slice_wf (arrays w) (localTracks (p_ w)) →
  token_at l (w, ts) → token_at l (w', <[i:=t']> ts ++ new).
Proof.
  intros Hi Hstep Hok. revert Hi.
  destruct t as [pc|r pc|r l0 k b pc|s k pc|tr0 pc|tr0 pc|pc|ev pc]; [..|done]; clear Hok.
  all: destruct w as [p h tr tk rc wr rt pn]; destruct p as [c lt ltm m c1 c2 c3 mu0 o].
  all: simpl in Hstep; destruct pc, e; try discriminate Hstep; run_step Hstep.
  all: intros Hi Hwf (T1 & T2 & T3 & T4).
  all: match goal with |- token_at _ (_, <[_:=?t']> _ ++ _) =>
         match type of Hi with _ !! _ = Some ?t =>
           pose proof (tally_insert (add_due l) ts i t t' Hi);
           pose proof (tally_insert (remove_due l) ts i t t' Hi);
           pose proof (tally_insert (append_due l) ts i t t' Hi)
         end end.
  all: unfold token_at; simpl in *; rewrite ?tally_app; simpl.
  all: try match goal with
    | E : append _ _ _ = _, W : slice_wf _ _ |- _ =>
      destruct (append_spec _ _ _ _ _ E W) as (Hv & _ & _); rewrite Hv
    end.
  all: rewrite ?tally_app; simpl; unfold is_Add, is_Remove, is_entry in *; simpl.
  all: rewrite ?lookup_insert_None.
  all: repeat case_decide; simplify_eq.
  all: try match goal with
    | HN : ?x = None, T : ?x = None → _ |- _ => pose proof (T HN)
    end.
  all: repeat match goal with |- _ ∧ _ => split end; try lia.
  all: intros HN;
    first [ specialize (T4 HN); lia
          | destruct HN as [HN ?]; first [congruence | specialize (T4 HN); lia] ].
Qed.

Lemma init_token_inv cid : token_inv (init cid).
Proof. intros l. unfold token_at. simpl. repeat split; lia. Qed.

Lemma step_token_inv l st st' :
  step l st = Some st' → inv st → token_inv st → token_inv st'.
Proof.
  destruct st as [w ts]. unfold step. destruct (panicked w); [done|].
  intros H [Hw Hts] Htok l0. specialize (Htok l0). simpl in *.
  destruct l as [c | i e | k].
  - injection H as <-. unfold token_at in *. simpl in *. rewrite !tally_app.
    assert (add_due l0 (enter c) = 0 ∧ remove_due l0 (enter c) = 0 ∧
            append_due l0 (enter c) = 0) as (E1 & E2 & E3) by (by destruct c).
    simpl. rewrite E1, E2, E3. destruct Htok as (T1 & T2 & T3 & T4).
    repeat split; try lia; specialize (T4 H); lia.
  - destruct (ts !! i) as [t|] eqn:Hi; simpl in H; [|done].
    destruct (step_thread w t e) as [[[w' t'] new]|] eqn:Hstep; simpl in H; [|done].
    injection H as <-.
    eapply thread_step_token; eauto.
    + eapply Forall_lookup_1; eauto.
    + by destruct Hw as (_&_&_&Hwf&_).
  - destruct (tickers w !! k) as [t|]; simpl in H; [|done].
    injection H as <-. by destruct w.
Qed.

Lemma run_token_inv ls st st' :
  run ls st = Some st' → inv st → token_inv st → token_inv st'.
Proof.
  revert st. induction ls as [|l ls IH]; intros st H Hinv Ht; simpl in H.
  - by injection H as <-.
  - destruct (step l st) as [st1|] eqn:Hs; simpl in H; [|done].
    eapply IH; [done | by eapply step_inv | by eapply step_token_inv].
Qed.

Lemma tally_elem {A} (f : A → nat) l x : x ∈ l → f x ≤ tally f l.
Proof.
  intros [i Hi]%list_elem_of_lookup. by eapply tally_lookup.
Qed.

Lemma NoDup_entries (v : list (option TrackPtr)) :
  (∀ x, x ∈ v → ∃ l, x = Some l) → (∀ l, tally (is_entry l) v ≤ 1) → NoDup v.
Proof.
  induction v as [|x v IH]; intros Hsome Hone; [constructor|].
  destruct (Hsome x) as [l ->]; [apply list_elem_of_here|].
  constructor.
  - intros Hin. pose proof (tally_elem (is_entry l) v _ Hin) as H1.
    specialize (Hone l). simpl in Hone. unfold is_entry in *.
    rewrite decide_True in Hone, H1 by done. lia.
  - apply IH.
    + intros y Hy. apply Hsome. by apply list_elem_of_further.
    + intros l0. specialize (Hone l0). simpl in Hone. lia.
Qed.

(** X5.  For every local track at most one Add event and at most one
    Remove event are ever received, and the track is in [localTracks] at
    most once: [localTracks] has no entry twice. *)
Theorem one_Add_one_Remove_per_track cid ls st l :
  run ls (init cid) = Some st →
  tally (is_Add l) (received st.1) ≤ 1 ∧
  tally (is_Remove l) (received st.1) ≤ 1 ∧
  tally (is_entry l) (view (arrays st.1) (localTracks (p_ st.1))) ≤ 1 ∧
  NoDup (view (arrays st.1) (localTracks (p_ st.1))).
Proof.
  intros Hrun.
  pose proof (run_token_inv _ _ _ Hrun (init_inv cid) (init_token_inv cid)) as Htok.
  destruct (reachable_prov_inv _ _ _ Hrun) as [(_&_&_&_&_&P6) _].
  destruct (Htok l) as (T1 & T2 & T3 & _). simpl in *.
  split; [lia|]. split; [lia|]. split; [lia|].
  apply NoDup_entries.
  - intros x Hx. destruct (P6 x Hx) as (l0 & -> & _). by exists l0.
  - intros l0. destruct (Htok l0) as (_ & _ & T3' & _). simpl in T3'. lia.
Qed.

Lemma one_Add_one_Remove_per_track_witness :
  tally (is_Add 1%positive) (received state_after_exit.1) = 1 ∧
  tally (is_Add 1%positive) (received state_after_exit.1) ≤ 1 ∧
  NoDup (view (arrays state_after_exit.1) (localTracks (p_ state_after_exit.1))).
Proof.
  assert (run (trace_add_then_close ++ trace_copy_exit) (init "pub1") =
          Some state_after_exit) as HR by (vm_compute; reflexivity).
  destruct (one_Add_one_Remove_per_track "pub1" _ _ 1%positive HR) as (H1 & _ & _ & H4).
  split; [vm_compute; reflexivity|]. split; [exact H1 | exact H4].
Defined.

(** X6.  Every event received from the events channel carries the client
    ID of the listener, which never changes, and a track that
    [startCopyingTrack] created on this listener, named ["sfu_"] and
    ["sfu_" + clientID + "_"] followed by non-empty strings. *)
Theorem events_come_from_this_listener cid ls st ev :
  run ls (init cid) = Some st →
  ev ∈ received st.1 →
  clientID (p_ st.1) = cid ∧ ClientID ev = cid ∧
  ∃ t, tracks st.1 !! Track ev = Some t ∧ named cid t.
Proof.
  intros Hrun Hin.
  destruct (reachable_prov_inv _ _ _ Hrun) as [(P1&P2&P3&_) _].
  destruct (P3 ev Hin) as [Hc [t Ht]].
  split; [done|]. split; [done|]. exists t. split; [done|]. by eapply P2.
Qed.

Lemma events_come_from_this_listener_witness :
  ev_add1 ∈ received state_closed.1 ∧
  ∃ t, tracks state_closed.1 !! 1%positive = Some t ∧ named "pub1" t.
Proof.
  assert (run trace_add_then_close (init "pub1") = Some state_closed) as HR
    by (vm_compute; reflexivity).
  assert (ev_add1 ∈ received state_closed.1) as Hin
    by (vm_compute; apply list_elem_of_here).
  split; [exact Hin|].
  exact (proj2 (proj2 (events_come_from_this_listener _ _ _ _ HR Hin))).
Defined.

(** X7.  Every write to a local track is a write to a track created on
    this listener, of at most 1400 bytes; every PLI given to [WriteRTCP]
    names the SSRC of such a track. *)
Theorem writes_and_PLIs_are_bounded cid ls st :
  run ls (init cid) = Some st →
  (∀ l b, (l, b) ∈ written st.1 → length b ≤ 1400 ∧ is_Some (tracks st.1 !! l)) ∧
  (∀ s, s ∈ rtcp st.1 → ∃ l t, tracks st.1 !! l = Some t ∧ t_ssrc t = s).
Proof.
  intros Hrun.
  destruct (reachable_prov_inv _ _ _ Hrun) as [(_&_&_&P4&P5&_) _].
  split; [|done]. intros l b Hin. destruct (P4 l b Hin). done.
Qed.

Lemma writes_and_PLIs_are_bounded_witness :
  (1%positive, [Byte.x01]) ∈ written state_write_failed.1 ∧
  length [Byte.x01] ≤ 1400 ∧ is_Some (tracks state_write_failed.1 !! 1%positive).
Proof.
  assert (run trace_write_fails (init "pub1") = Some state_write_failed) as HR
    by (vm_compute; reflexivity).
  assert ((1%positive, [Byte.x01]) ∈ written state_write_failed.1) as Hin
    by (vm_compute; apply list_elem_of_here).
  split; [exact Hin|].
  exact (proj1 (writes_and_PLIs_are_bounded _ _ _ HR) _ _ Hin).
Defined.

(** X8.  [localTracks] only grows: along every run what it held before is
    a prefix of what it holds after, also after the Remove event of a
    track; and its entries are never nil, each is a track created on this
    listener. *)
Theorem localTracks_only_grows cid ls st ls' st' :
  run ls (init cid) = Some st →
  run ls' st = Some st' →
  view (arrays st.1) (localTracks (p_ st.1)) `prefix_of`
    view (arrays st'.1) (localTracks (p_ st'.1)) ∧
  (∀ x, x ∈ view (arrays st'.1) (localTracks (p_ st'.1)) →
        ∃ l, x = Some l ∧ is_Some (tracks st'.1 !! l)).
Proof.
  intros Hrun Hrun'.
  destruct (run_inv _ _ _ Hrun (init_inv cid)) as [Hinv _].
  destruct (run_inv _ _ _ Hrun' Hinv) as [Hinv' Hle].
  split; [by destruct Hle as (_&_&_&_&_&_&Hpre&_)|].
  assert (run (ls ++ ls') (init cid) = Some st') as Hrun2.
  { clear -Hrun Hrun'. revert Hrun. generalize (init cid).
    induction ls as [|l ls IH]; intros s0 H; simpl in *; [by injection H as -> |].
    destruct (step l s0); simpl in *; [eauto | done]. }
  by destruct (reachable_prov_inv _ _ _ Hrun2) as [(_&_&_&_&_&P6) _].
Qed.

Lemma localTracks_only_grows_witness :
  view (arrays state_closed.1) (localTracks (p_ state_closed.1)) `prefix_of`
    view (arrays state_after_exit.1) (localTracks (p_ state_after_exit.1)).
Proof.
  apply (localTracks_only_grows "pub1" trace_add_then_close state_closed
           trace_copy_exit state_after_exit); vm_compute; reflexivity.
Defined.

(** ** The lock of [localTracks] and [rtpSenderByTrack] *)

Lemma thread_step_localTracksMu w ts i t e w' t' new :
  ts !! i = Some t → step_thread w t e = Some (w', t', new) →
  localTracksMu_inv (w, ts) →
  localTracksMu_inv (w', <[i:=t']> ts ++ new) ∧
  (rtpSenderByTrack (p_ w') ≠ rtpSenderByTrack (p_ w) ∨
   localTracks (p_ w') ≠ localTracks (p_ w) ∨ arrays w' ≠ arrays w →
   holds_localTracksMu t = 1).
Proof.
  intros Hi Hstep. revert Hi.
  destruct w as [p h tr tk rc wr rt pn]. destruct p as [cid lt [lw lr] m c1 c2 c3 mu0 o].
  destruct t as [pc|r pc|r l k b pc|s k pc|tr0 pc|tr0 pc|pc|ev pc]; simpl in Hstep;
    destruct pc, e; try discriminate Hstep; run_step Hstep.
  all: unpack; simplify_eq/=.
  all: try match goal with
    | H : (if ?b then _ else _) = Some _ |- _ => destruct b; simplify_eq/=
    end.
  all: intros Hi [I1 I2].
  all: match goal with |- localTracksMu_inv (_, <[_:=?t']> _ ++ _) ∧ _ =>
         match type of Hi with _ !! _ = Some ?t =>
           pose proof (tally_insert holds_localTracksMu ts i t t' Hi);
           pose proof (tally_lookup holds_localTracksMu ts i t Hi) end end.
  all: unfold localTracksMu_inv; simpl in *; rewrite !tally_app; simpl.
  all: try (destruct lw; simpl in * ).
  all: repeat match goal with |- _ ∧ _ => split end; try lia.
  all: try (intros [?|[?|?]]; congruence).
Qed.

Lemma init_localTracksMu_inv cid : localTracksMu_inv (init cid).
Proof. by split. Qed.

Lemma step_localTracksMu_inv l st st' :
  step l st = Some st' → localTracksMu_inv st → localTracksMu_inv st'.
Proof.
  destruct st as [w ts]. unfold step. destruct (panicked w); [done|].
  intros H Hinv. destruct l as [c | i e | k].
  - injection H as <-. destruct Hinv as [I1 I2]. split; [|done]. simpl in *.
    rewrite tally_app. simpl. destruct c; simpl; lia.
  - destruct (ts !! i) as [t|] eqn:Hi; simpl in H; [|done].
    destruct (step_thread w t e) as [[[w' t'] new]|] eqn:Hstep; simpl in H; [|done].
    injection H as <-. by destruct (thread_step_localTracksMu _ _ _ _ _ _ _ _ Hi Hstep Hinv).
  - destruct (tickers w !! k) as [t|]; simpl in H; [|done].
    injection H as <-. by destruct w.
Qed.

Lemma run_localTracksMu_inv ls st st' :
  run ls st = Some st' → localTracksMu_inv st → localTracksMu_inv st'.
Proof.
  revert st. induction ls as [|l ls IH]; intros st H Hinv; simpl in H.
  - by injection H as <-.
  - destruct (step l st) as [st1|] eqn:Hs; simpl in H; [|done].
    eapply IH; [done | by eapply step_localTracksMu_inv].
Qed.

Lemma tally_two {A} (f : A → nat) l i j x y :
  i ≠ j → l !! i = Some x → l !! j = Some y → f x + f y ≤ tally f l.
Proof.
  revert i j. induction l as [|a l IH]; intros [|i] [|j] Hne Hi Hj; simpl in *; try done.
  - injection Hi as ->. pose proof (tally_lookup f _ _ _ Hj). lia.
  - injection Hj as ->. pose proof (tally_lookup f _ _ _ Hi). lia.
  - assert (i ≠ j) as Hne' by congruence. specialize (IH _ _ Hne' Hi Hj). lia.
Qed.

(** X9.  [localTracksMu] is held exactly while one thread is between its
    [Lock] and its [Unlock], in [AddTrack], [RemoveTrack] or the handler of
    a remote track; no two threads are there at once and nobody takes the
    lock for reading.  A step that changes [rtpSenderByTrack],
    [localTracks] or an array behind it is a step of the thread that holds
    the lock. *)
Theorem localTracksMu_discipline cid ls st :
  run ls (init cid) = Some st →
  tally holds_localTracksMu st.2 ≤ 1 ∧
  bn (writer (localTracksMu (p_ st.1))) = tally holds_localTracksMu st.2 ∧
  readers (localTracksMu (p_ st.1)) = 0 ∧
  ∀ l st', step l st = Some st' →
    rtpSenderByTrack (p_ st'.1) ≠ rtpSenderByTrack (p_ st.1) ∨
    localTracks (p_ st'.1) ≠ localTracks (p_ st.1) ∨ arrays st'.1 ≠ arrays st.1 →
    ∃ i e t, l = Step i e ∧ st.2 !! i = Some t ∧ holds_localTracksMu t = 1 ∧
      writer (localTracksMu (p_ st.1)) = true ∧
      ∀ j t2, j ≠ i → st.2 !! j = Some t2 → holds_localTracksMu t2 = 0.
Proof.
  intros Hrun.
  pose proof (run_localTracksMu_inv _ _ _ Hrun (init_localTracksMu_inv cid)) as Hinv.
  pose proof Hinv as [I1 I2].
  assert (tally holds_localTracksMu st.2 ≤ 1) as Hone.
  { rewrite <- I1. apply bn_le. }
  split; [done|]. split; [done|]. split; [done|].
  intros l st' Hstep Hch. destruct st as [w ts]. unfold step in Hstep.
  destruct (panicked w); [done|]. destruct l as [c | i e | k].
  - injection Hstep as <-. simpl in Hch. by destruct Hch as [?|[?|?]].
  - destruct (ts !! i) as [t|] eqn:Hi; simpl in Hstep; [|done].
    destruct (step_thread w t e) as [[[w' t'] new]|] eqn:Hst; simpl in Hstep; [|done].
    injection Hstep as <-.
    destruct (thread_step_localTracksMu _ _ _ _ _ _ _ _ Hi Hst Hinv) as [_ Hh].
    specialize (Hh Hch). pose proof (tally_lookup holds_localTracksMu _ _ _ Hi) as Hle.
    exists i, e, t. split; [done|]. split; [done|]. split; [done|]. simpl in *. split.
    + destruct (writer (localTracksMu (p_ w))); simpl in *; [done | lia].
    + intros j t2 Hne Hj.
      pose proof (tally_two holds_localTracksMu _ _ _ _ _ Hne Hj Hi). lia.
  - destruct (tickers w !! k) as [t|]; simpl in Hstep; [|done].
    injection Hstep as <-. destruct w. simpl in Hch. by destruct Hch as [?|[?|?]].
Qed.

Lemma localTracksMu_discipline_witness :
  writer (localTracksMu (p_ state_calls_wait.1)) = true ∧
  tally holds_localTracksMu state_calls_wait.2 ≤ 1 ∧
  step (Step 3 Tau) state_calls_wait = None ∧ step (Step 4 Tau) state_calls_wait = None.
Proof.
  assert (run trace_calls_wait (init "pub1") = Some state_calls_wait) as HR
    by (vm_compute; reflexivity).
  split; [vm_compute; reflexivity|].
  split; [exact (proj1 (localTracksMu_discipline _ _ _ HR))|].
  split; vm_compute; reflexivity.
Defined.

(** X10.  A second [RemoveTrack] of the same track finds no sender: it
    returns the error of the missing sender and changes nothing. *)
Theorem RemoveTrack_twice w track ok ok' w1 err :
  localTracksMu (p_ w) = rw_free → panicked w = false →
  RemoveTrack track ok w = Returned w1 (TRemoveTrack track (R_ret err)) →
  RemoveTrack track ok' w1 =
    Returned w1 (TRemoveTrack track (R_ret (Some ErrCannotFindSender))).
Proof.
  intros Hfree Hp. rewrite RemoveTrack_returns by done.
  destruct (rtpSenderByTrack (p_ w) !! track) as [s|] eqn:Hm.
  - intros [= <- _]. rewrite RemoveTrack_returns.
    + destruct w as [p h tr tk rc wr rt pn]. simpl. by rewrite lookup_delete_eq.
    + by destruct w.
    + by destruct w.
  - intros [= <- _]. rewrite RemoveTrack_returns by done. by rewrite Hm.
Qed.

Lemma RemoveTrack_twice_witness :
  ∃ w1, RemoveTrack 1%positive true world_attached =
          Returned w1 (TRemoveTrack 1%positive (R_ret None)) ∧
        RemoveTrack 1%positive false w1 =
          Returned w1 (TRemoveTrack 1%positive (R_ret (Some ErrCannotFindSender))).
Proof.
  assert (RemoveTrack 1%positive true world_attached =
    Returned (upd (set_rtpSenderByTrack (delete 1%positive {[1%positive := 7%positive]}))
                world_attached)
      (TRemoveTrack 1%positive (R_ret None))) as H1
    by exact (RemoveTrack_returns world_attached 1%positive true eq_refl eq_refl).
  eexists. split; [exact H1|].
  exact (RemoveTrack_twice world_attached 1%positive true false _ None eq_refl eq_refl H1).
Defined.
